(** * BFSearcher: bounded best-first distance search over an LLVM module

    Shallow embedding of [lib/Core/BFSearcher.cpp].  The LLVM intermediate
    representation is an external library: it is taken as a record of the
    accessors that the searcher calls.  The members declared in
    [BFSearcher.h] (the three limits and the two pure virtual functions) are
    taken as a record of parameters. *)

From Stdlib Require Import ZArith Lia List Sorted.
From stdpp Require Import base decidable countable gmap list.

(** ** Results of fallible code

    [AssertionFailure] is the [assert] of [doSingleSearchIteration] failing
    (the process aborts).  [Undefined] is a use of the LLVM or standard
    library interface outside its contract: dereferencing a null or
    past-the-end iterator, [top] of an empty queue, [cast<>] to a class the
    instruction does not have, [front] of an empty list. *)
Inductive result (A : Type) : Type :=
| Ok (a : A)
| AssertionFailure
| Undefined.
Arguments Ok {A} a.
Arguments AssertionFailure {A}.
Arguments Undefined {A}.

#[global] Instance result_ret : MRet result := fun A a => Ok a.
#[global] Instance result_bind : MBind result := fun A B f m =>
  match m with
  | Ok a => f a
  | AssertionFailure => AssertionFailure
  | Undefined => Undefined
  end.

(** ** The program model (LLVM) *)

(** Instructions, basic blocks and functions are handles compared by
    identity. *)
Abbreviation Instruction := nat (only parsing).
Abbreviation BasicBlock := nat (only parsing).
Abbreviation Func := nat (only parsing).

(** The classes tested with [isa<>].  In LLVM [ReturnInst] derives from
    [TerminatorInst]; [K_Terminator] stands for every other terminator. *)
Inductive InstKind : Type :=
| K_Call
| K_Return
| K_Terminator
| K_Other.

Record LLVMModule : Type := {
  (** [inst->getParent()] *)
  getParent : Instruction → BasicBlock;
  (** the instruction list of a block, in program order *)
  instructions : BasicBlock → list Instruction;
  kind : Instruction → InstKind;
  (** [call->getCalledFunction()], [None] for the null pointer *)
  getCalledFunction : Instruction → option Func;
  (** [f->isIntrinsic()] *)
  isIntrinsic : Func → bool;
  (** the block list of a function; [f->empty()] is this list being empty *)
  blocks : Func → list BasicBlock;
  (** [succ_begin(bb) .. succ_end(bb)] *)
  successors : BasicBlock → list BasicBlock
}.

(** [llvm::BasicBlock::iterator]: a null node pointer, the position of an
    instruction, or the past-the-end position of a block. *)
Inductive iterator : Type :=
| it_null
| it_at (i : Instruction)
| it_end (b : BasicBlock).

#[global] Instance iterator_eq_dec : EqDecision iterator.
Proof. solve_decision. Defined.

#[global] Instance iterator_countable : Countable iterator.
Proof.
  refine (inj_countable'
    (fun it => match it with
               | it_null => None
               | it_at i => Some (inl i)
               | it_end b => Some (inr b)
               end)
    (fun o => match o with
              | None => it_null
              | Some (inl i) => it_at i
              | Some (inr b) => it_end b
              end) _).
  intros []; reflexivity.
Defined.

(** ** Data of the searcher *)

Record BFStackEntry : Type := { call : iterator }.

#[global] Instance BFStackEntry_eq_dec : EqDecision BFStackEntry.
Proof. solve_decision. Defined.

#[global] Instance BFStackEntry_countable : Countable BFStackEntry.
Proof.
  refine (inj_countable' call (fun it => {| call := it |}) _).
  intros []; reflexivity.
Defined.

(** [stack] is a [std::stack]: the head of the list is its top.
    [distanceFromStart] is a [uint], kept as an integer in [0, 2^32). *)
Record BFSearchState : Type := {
  instruction : iterator;
  distanceFromStart : Z;
  stack : list BFStackEntry
}.

(** The part of a [BFSearcher] subclass that the header declares: the
    limits and the pure virtual functions. *)
Record Config : Type := {
  maxDistance : Z;
  maxIterations : Z;
  maxQueueLength : Z;
  isTheTarget : BFSearchState → bool;
  distanceToPass : Instruction → Z
}.

(** The searcher object.  [pushed] and [popped] are ghost fields: the
    sequence of states given to [searchqueue.push] and the sequence of states
    removed by [searchqueue.pop], most recent first.  No operation reads
    them. *)
Record BFSearcher : Type := {
  searchqueue : list BFSearchState;
  duplicateFilter : gset (nat * list BFStackEntry);
  iterationCounter : Z;
  pushed : list BFSearchState;
  popped : list BFSearchState
}.

Definition UINT_MAX : Z := 4294967295.

(** Addition of two [uint] values. *)
Definition uint_add (a b : Z) : Z := ((a + b) mod 4294967296)%Z.

(** The largest [size_t], and the conversion of an integer to [size_t]
    (64 bits): the comparison [searchqueue.size() <= maxQueueLength] is made
    in that type, so a negative limit counts as a very large one. *)
Definition SIZE_MAX : Z := 18446744073709551615.

Definition size_t_of (z : Z) : Z := (z mod 18446744073709551616)%Z.
Arguments size_t_of : simpl never.

(** The value [-1] converted to [uint], returned when nothing is found. *)
Definition UNREACHABLE : Z := ((-1) mod 4294967296)%Z.

Definition with_stack (s : BFSearchState) (st : list BFStackEntry) : BFSearchState :=
  {| instruction := instruction s;
     distanceFromStart := distanceFromStart s;
     stack := st |}.

Definition with_iterationCounter (this : BFSearcher) (n : Z) : BFSearcher :=
  {| searchqueue := searchqueue this;
     duplicateFilter := duplicateFilter this;
     iterationCounter := n;
     pushed := pushed this;
     popped := popped this |}.

(** Modelled from the spec: the comparison of the keys of the [std::set]
    [duplicateFilter], which rests on the comparison of [BFStackEntry]
    declared in [BFSearcher.h].  A key is a pair of an instruction and a
    call stack; two keys are the same when the instructions are the same and
    the stacks hold the same call sites in the same order.  This is
    [duplicateFilter.count(key)]. *)
Definition duplicateFilter_count (key : nat * list BFStackEntry)
    (filter : gset (nat * list BFStackEntry)) : bool :=
  bool_decide (key ∈ filter).

(** Modelled from the spec: [BFSearchState::operator<], declared in
    [BFSearcher.h], orders the [std::priority_queue] so that [top] is a state
    of least [distanceFromStart].  The queue is kept as a list sorted by
    ascending distance; among states of equal distance the order is the
    order of insertion, where the library leaves it open. *)
Fixpoint pq_push (s : BFSearchState) (q : list BFSearchState) : list BFSearchState :=
  match q with
  | [] => [s]
  | x :: r =>
      if (distanceFromStart s <? distanceFromStart x)%Z
      then s :: x :: r
      else x :: pq_push s r
  end.

Section Searcher.

Context (M : LLVMModule) (C : Config).

(** *** Iterators over a block *)

(** [bb->begin()] *)
Definition bb_begin (bb : BasicBlock) : iterator :=
  match instructions M bb with
  | [] => it_end bb
  | i :: _ => it_at i
  end.

(** [bb->front()] *)
Definition bb_front (bb : BasicBlock) : result Instruction :=
  match instructions M bb with
  | [] => Undefined
  | i :: _ => Ok i
  end.

(** [f->front()] *)
Definition fn_front (f : Func) : result BasicBlock :=
  match blocks M f with
  | [] => Undefined
  | bb :: _ => Ok bb
  end.

(** [f->empty()] *)
Definition fn_empty (f : Func) : bool :=
  match blocks M f with
  | [] => true
  | _ :: _ => false
  end.

(** [&*it] used as an instruction *)
Definition deref (it : iterator) : result Instruction :=
  match it with
  | it_at i => Ok i
  | _ => Undefined
  end.

(** The position after [i] in the list [l] of block [bb]; [None] when [i]
    is not linked in the list. *)
Fixpoint next_in (bb : BasicBlock) (i : Instruction) (l : list Instruction)
  : option iterator :=
  match l with
  | [] => None
  | x :: r =>
      if decide (x = i)
      then Some (match r with [] => it_end bb | y :: _ => it_at y end)
      else next_in bb i r
  end.

(** [++it] *)
Definition incr (it : iterator) : result iterator :=
  match it with
  | it_at i =>
      match next_in (getParent M i) i (instructions M (getParent M i)) with
      | Some nxt => Ok nxt
      | None => Undefined
      end
  | _ => Undefined
  end.

Definition isa_CallInst (i : Instruction) : bool :=
  match kind M i with K_Call => true | _ => false end.

Definition isa_ReturnInst (i : Instruction) : bool :=
  match kind M i with K_Return => true | _ => false end.

Definition isa_TerminatorInst (i : Instruction) : bool :=
  match kind M i with K_Return | K_Terminator => true | _ => false end.

(** [llvm::cast<llvm::CallInst>(it)] *)
Definition cast_CallInst (it : iterator) : result Instruction :=
  match it with
  | it_at i => if isa_CallInst i then Ok i else Undefined
  | _ => Undefined
  end.

(** *** getIteratorOnInstruction *)

Fixpoint scan_block (bb : BasicBlock) (inst : Instruction) (l : list Instruction)
  : iterator :=
  match l with
  | [] => it_end bb
  | i :: r => if decide (i = inst) then it_at i else scan_block bb inst r
  end.

Definition getIteratorOnInstruction (inst : Instruction) : iterator :=
  let bb := getParent M inst in
  scan_block bb inst (instructions M bb).

(** *** BFSearchState *)

(** The constructor taking a list of call sites: each is pushed in list
    order, so the last element of the list ends on top. *)
Definition BFSearchState_new (_instruction : Instruction) (_distanceFromStart : Z)
    (_stack : list Instruction) : BFSearchState :=
  {| instruction := getIteratorOnInstruction _instruction;
     distanceFromStart := _distanceFromStart;
     stack := fold_left
                (fun st it => {| call := getIteratorOnInstruction it |} :: st)
                _stack [] |}.

(** The loop of [doesIntroduceRecursion] over the copied stack. *)
Fixpoint probe_stack (nextcalled : option Func) (stackCopy : list BFStackEntry)
  : result bool :=
  match stackCopy with
  | [] => Ok false
  | probe :: rest =>
      probecall ← cast_CallInst (call probe);
      let probecalled := getCalledFunction M probecall in
      if decide (nextcalled = probecalled) then Ok true
      else probe_stack nextcalled rest
  end.

Definition doesIntroduceRecursion (this : BFSearchState) (next : BFStackEntry)
  : result bool :=
  match stack this with
  | [] => Ok false
  | _ :: _ =>
      nextcall ← cast_CallInst (call next);
      let nextcalled := getCalledFunction M nextcall in
      probe_stack nextcalled (stack this)
  end.

(** *** BFSearcher *)

Definition wasAddedEarlier (this : BFSearcher) (state : BFSearchState)
  : result bool :=
  i ← deref (instruction state);
  f ← bb_front (getParent M i);
  if decide (f = i)
  then Ok (duplicateFilter_count (i, stack state) (duplicateFilter this))
  else Ok false.

Definition rememberAsAdded (this : BFSearcher) (state : BFSearchState)
  : result BFSearcher :=
  i ← deref (instruction state);
  f ← bb_front (getParent M i);
  if decide (f = i)
  then Ok {| searchqueue := searchqueue this;
             duplicateFilter := {[ (i, stack state) ]} ∪ duplicateFilter this;
             iterationCounter := iterationCounter this;
             pushed := pushed this;
             popped := popped this |}
  else Ok this.

Definition addToSearchQueue (this : BFSearcher) (state : BFSearchState)
  : result BFSearcher :=
  seen ← wasAddedEarlier this state;
  if negb seen
     && (Z.of_nat (length (searchqueue this)) <=? size_t_of (maxQueueLength C))%Z
  then rememberAsAdded
         {| searchqueue := pq_push state (searchqueue this);
            duplicateFilter := duplicateFilter this;
            iterationCounter := iterationCounter this;
            pushed := state :: pushed this;
            popped := popped this |}
         state
  else Ok this.

(** [oldState.instruction] is handed to [distanceToPass] as an
    [llvm::Instruction*]. *)
Definition enqueueInSearchQueue (this : BFSearcher) (oldState : BFSearchState)
    (next : iterator) (newStack : list BFStackEntry) : result BFSearcher :=
  i ← deref (instruction oldState);
  addToSearchQueue this
    {| instruction := next;
       distanceFromStart := uint_add (distanceFromStart oldState) (distanceToPass C i);
       stack := newStack |}.

Definition popFromSeachQueue (this : BFSearcher)
  : result (BFSearchState * BFSearcher) :=
  match searchqueue this with
  | [] => Undefined
  | top :: rest =>
      Ok (top, {| searchqueue := rest;
                  duplicateFilter := duplicateFilter this;
                  iterationCounter := iterationCounter this;
                  pushed := pushed this;
                  popped := top :: popped this |})
  end.

(** The loop over the successor blocks of a terminator. *)
Fixpoint enqueue_successors (this : BFSearcher) (curr : BFSearchState)
    (succs : list BasicBlock) : result BFSearcher :=
  match succs with
  | [] => Ok this
  | sit :: rest =>
      this' ← enqueueInSearchQueue this curr (bb_begin sit) (stack curr);
      enqueue_successors this' curr rest
  end.

(** [(++(curr.instruction))--] passes the advanced iterator and leaves
    [curr.instruction] as it was. *)
Definition enqueue_next (this : BFSearcher) (curr : BFSearchState)
  : result BFSearcher :=
  nxt ← incr (instruction curr);
  enqueueInSearchQueue this curr nxt (stack curr).

Definition doSingleSearchIteration (this : BFSearcher) : result BFSearcher :=
  '(curr, this) ← popFromSeachQueue this;
  match instruction curr with
  | it_null => AssertionFailure
  | it_end _ => Undefined
  | it_at i =>
      if isa_CallInst i then
        match getCalledFunction M i with
        | Some called =>
            if negb (isIntrinsic M called) && negb (fn_empty called) then
              let next := {| call := instruction curr |} in
              rec ← doesIntroduceRecursion curr next;
              if negb rec then
                let curr := with_stack curr (next :: stack curr) in
                entry ← fn_front called;
                enqueueInSearchQueue this curr (bb_begin entry) (stack curr)
              else Ok this
            else enqueue_next this curr
        | None => enqueue_next this curr
        end
      else if isa_ReturnInst i then
        match stack curr with
        | [] => Ok this
        | gobackto :: rest =>
            let curr := with_stack curr rest in
            nxt ← incr (call gobackto);
            enqueueInSearchQueue this curr nxt (stack curr)
        end
      else if isa_TerminatorInst i then
        enqueue_successors this curr (successors M (getParent M i))
      else enqueue_next this curr
  end.

(** The condition of the [while] loop of [searchForMinimalDistance]. *)
Definition loop_condition (this : BFSearcher) : bool :=
  match searchqueue this with
  | [] => false
  | top :: _ =>
      (distanceFromStart top <? maxDistance C)%Z
      && (iterationCounter this <? maxIterations C)%Z
  end.

(** [iterationCounter++] on a [uint]. *)
Definition count_iteration (this : BFSearcher) : BFSearcher :=
  with_iterationCounter this (uint_add (iterationCounter this) 1).

(** The loop, unrolled at most [fuel] times; [None] when [fuel] runs out
    before the loop has ended. *)
Fixpoint search_loop (fuel : nat) (this : BFSearcher)
  : option (result (Z * BFSearcher)) :=
  if loop_condition this then
    match searchqueue this with
    | [] => Some Undefined
    | top :: _ =>
        if isTheTarget C top then Some (Ok (distanceFromStart top, this))
        else
          match fuel with
          | O => None
          | S fuel' =>
              match doSingleSearchIteration this with
              | Ok this' => search_loop fuel' (count_iteration this')
              | AssertionFailure => Some AssertionFailure
              | Undefined => Some Undefined
              end
          end
    end
  else Some (Ok (UNREACHABLE, this)).

(** The number of iterations left before [iterationCounter] reaches
    [maxIterations] bounds the number of times the loop body runs. *)
Definition searchForMinimalDistance (this : BFSearcher)
  : option (result (Z * BFSearcher)) :=
  search_loop (Z.to_nat (maxIterations C - iterationCounter this)) this.

(** A searcher object before its constructor body has run. *)
Definition fresh : BFSearcher :=
  {| searchqueue := [];
     duplicateFilter := ∅;
     iterationCounter := 0;
     pushed := [];
     popped := [] |}.

(** Both constructors; the first is the second with an empty list. *)
Definition BFSearcher_new (start : Instruction) (_stack : list Instruction)
  : result BFSearcher :=
  this ← addToSearchQueue fresh (BFSearchState_new start 0 _stack);
  Ok (with_iterationCounter this 0).

(** One query: construction followed by [searchForMinimalDistance]. *)
Definition query (start : Instruction) (_stack : list Instruction)
  : option (result (Z * BFSearcher)) :=
  match BFSearcher_new start _stack with
  | Ok this => searchForMinimalDistance this
  | AssertionFailure => Some AssertionFailure
  | Undefined => Some Undefined
  end.

End Searcher.

(** * Notions used to state the properties *)

Section Notions.

Context (M : LLVMModule) (C : Config).

(** The values of the type [uint]. *)
Definition uint_range (z : Z) : Prop := (0 ≤ z ≤ UINT_MAX)%Z.

(** The order of the queue. *)
Definition by_distance (a b : BFSearchState) : Prop :=
  (distanceFromStart a ≤ distanceFromStart b)%Z.

(** A stack entry that wraps the position of a call instruction. *)
Definition is_call_site (e : BFStackEntry) : Prop :=
  ∃ c, call e = it_at c ∧ isa_CallInst M c = true.

(** The function called from the call site of a stack entry, as
    [getCalledFunction] gives it. *)
Definition callee (e : BFStackEntry) : option Func :=
  match call e with
  | it_at c => getCalledFunction M c
  | _ => None
  end.

(** A call whose callee is unresolved, intrinsic or without a body. *)
Definition external_call (c : Instruction) : Prop :=
  getCalledFunction M c = None
  ∨ ∃ f, getCalledFunction M c = Some f
         ∧ (isIntrinsic M f = true ∨ blocks M f = []).

(** The key under which the duplicate filter knows a state: defined only
    for a state at the first instruction of its block. *)
Definition block_entry_key (s : BFSearchState) : option (nat * list BFStackEntry) :=
  match instruction s with
  | it_at i =>
      match instructions M (getParent M i) with
      | f :: _ => if decide (f = i) then Some (i, stack s) else None
      | [] => None
      end
  | _ => None
  end.

(** The keys of the states of a list that have one. *)
Definition entry_keys (l : list BFSearchState) : list (nat * list BFStackEntry) :=
  omap block_entry_key l.

(** What every operation keeps true of the searcher: the size of the
    queue, the keys of the pushed states being different and recorded in the
    filter, the pushed states being the queued and the removed ones, the
    order of the queue, and the distances being [uint] values. *)
Record Inv (this : BFSearcher) : Prop := {
  inv_size :
    (Z.of_nat (length (searchqueue this)) ≤ size_t_of (maxQueueLength C) + 1)%Z;
  inv_nodup : NoDup (entry_keys (pushed this));
  inv_filter : ∀ k, k ∈ entry_keys (pushed this) → k ∈ duplicateFilter this;
  inv_perm : pushed this ≡ₚ searchqueue this ++ popped this;
  inv_sorted : StronglySorted by_distance (searchqueue this);
  inv_range : Forall (fun s => uint_range (distanceFromStart s)) (pushed this)
}.

(** [adds this this'] : [this'] comes from [this] by a sequence of
    returning calls of [addToSearchQueue]. *)
Inductive adds : BFSearcher → BFSearcher → Prop :=
| adds_nil this : adds this this
| adds_cons this s this1 this2 :
    uint_range (distanceFromStart s) →
    addToSearchQueue M C this s = Ok this1 →
    adds this1 this2 →
    adds this this2.

(** Every object that the operations of the class can produce from a new
    one. *)
Inductive reachable : BFSearcher → Prop :=
| reach_fresh : reachable fresh
| reach_add this s this' :
    reachable this →
    uint_range (distanceFromStart s) →
    addToSearchQueue M C this s = Ok this' →
    reachable this'
| reach_pop this top this' :
    reachable this →
    popFromSeachQueue this = Ok (top, this') →
    reachable this'
| reach_counter this n :
    reachable this →
    reachable (with_iterationCounter this n).

(** The objects at the head of the loop of [searchForMinimalDistance]
    during the query started at [start] with the call sites [stk]. *)
Inductive during_query (start : Instruction) (stk : list Instruction)
  : BFSearcher → Prop :=
| dq_start this :
    BFSearcher_new M C start stk = Ok this →
    during_query start stk this
| dq_iteration this top rest this' :
    during_query start stk this →
    loop_condition C this = true →
    searchqueue this = top :: rest →
    isTheTarget C top = false →
    doSingleSearchIteration M C this = Ok this' →
    during_query start stk (count_iteration this').

(** The instruction is in the list of its parent block. *)
Definition linked (i : Instruction) : Prop :=
  i ∈ instructions M (getParent M i).

(** What LLVM guarantees of a verified module, as far as the searcher
    relies on it: an instruction is in one block only, an instruction that is
    not a terminator is followed by another one, and the blocks the searcher
    enters (successor blocks and entry blocks of called functions) are not
    empty. *)
Record well_formed : Prop := {
  wf_parent : ∀ bb i, i ∈ instructions M bb → getParent M i = bb;
  wf_next : ∀ i, linked i → isa_TerminatorInst M i = false →
            ∃ j, incr M (it_at i) = Ok (it_at j);
  wf_succ : ∀ i bb, linked i → bb ∈ successors M (getParent M i) →
            instructions M bb ≠ [];
  wf_entry : ∀ c f bb r, linked c → getCalledFunction M c = Some f →
             blocks M f = bb :: r → instructions M bb ≠ []
}.

(** Stack entries, states and queues made of linked instructions, with
    call instructions on the stacks. *)
Definition entry_ok (e : BFStackEntry) : Prop :=
  ∃ c, call e = it_at c ∧ linked c ∧ isa_CallInst M c = true.

Definition state_ok (s : BFSearchState) : Prop :=
  (∃ i, instruction s = it_at i ∧ linked i) ∧ Forall entry_ok (stack s).

Definition queue_ok (this : BFSearcher) : Prop :=
  Forall state_ok (searchqueue this).

(** A list of call sites given to the constructor. *)
Definition stack_ok (stk : list Instruction) : Prop :=
  Forall (fun c => linked c ∧ isa_CallInst M c = true) stk.

(** [adds_sat P this this'] : [this'] comes from [this] by a sequence of
    returning calls of [addToSearchQueue], each on a state that satisfies
    [P]. *)
Inductive adds_sat (P : BFSearchState → Prop) : BFSearcher → BFSearcher → Prop :=
| adds_sat_nil this : adds_sat P this this
| adds_sat_cons this s this1 this2 :
    P s →
    addToSearchQueue M C this s = Ok this1 →
    adds_sat P this1 this2 →
    adds_sat P this this2.

(** [successor curr s] : [s] is a state that [doSingleSearchIteration]
    hands to [addToSearchQueue] when it expands [curr]; one constructor for
    each branch that enqueues. *)
Inductive successor (curr : BFSearchState) : BFSearchState → Prop :=
| succ_call i called entry bbs :
    instruction curr = it_at i →
    isa_CallInst M i = true →
    getCalledFunction M i = Some called →
    isIntrinsic M called = false →
    blocks M called = entry :: bbs →
    doesIntroduceRecursion M curr {| call := it_at i |} = Ok false →
    successor curr
      {| instruction := bb_begin M entry;
         distanceFromStart := uint_add (distanceFromStart curr) (distanceToPass C i);
         stack := {| call := it_at i |} :: stack curr |}
| succ_return i gobackto rest nxt :
    instruction curr = it_at i →
    isa_CallInst M i = false →
    isa_ReturnInst M i = true →
    stack curr = gobackto :: rest →
    incr M (call gobackto) = Ok nxt →
    successor curr
      {| instruction := nxt;
         distanceFromStart := uint_add (distanceFromStart curr) (distanceToPass C i);
         stack := rest |}
| succ_branch i sb :
    instruction curr = it_at i →
    isa_CallInst M i = false →
    isa_ReturnInst M i = false →
    isa_TerminatorInst M i = true →
    sb ∈ successors M (getParent M i) →
    successor curr
      {| instruction := bb_begin M sb;
         distanceFromStart := uint_add (distanceFromStart curr) (distanceToPass C i);
         stack := stack curr |}
| succ_next i nxt :
    instruction curr = it_at i →
    (isa_CallInst M i = true ∧ external_call i
     ∨ isa_CallInst M i = false ∧ isa_ReturnInst M i = false
       ∧ isa_TerminatorInst M i = false) →
    incr M (it_at i) = Ok nxt →
    successor curr
      {| instruction := nxt;
         distanceFromStart := uint_add (distanceFromStart curr) (distanceToPass C i);
         stack := stack curr |}.

(** [derivable s0 path s] : [s] comes from [s0] by a chain of expansion
    steps; [path] lists the instructions expanded on the way, in order. *)
Inductive derivable (s0 : BFSearchState) : list Instruction → BFSearchState → Prop :=
| derivable_start : derivable s0 [] s0
| derivable_step path p i s :
    derivable s0 path p →
    instruction p = it_at i →
    successor p s →
    derivable s0 (path ++ [i]) s.

(** The sum of the weights of the instructions of a path. *)
Definition path_weight (path : list Instruction) : Z :=
  fold_right (fun i acc => (distanceToPass C i + acc)%Z) 0%Z path.

(** The guard of [addToSearchQueue], read off the filter and the queue. *)
Definition admits (this : BFSearcher) (s : BFSearchState) : bool :=
  negb match block_entry_key s with
       | Some k => bool_decide (k ∈ duplicateFilter this)
       | None => false
       end
  && (Z.of_nat (length (searchqueue this)) <=? size_t_of (maxQueueLength C))%Z.

(** No function is called from two entries of the stack. *)
Definition recursion_free (s : BFSearchState) : Prop :=
  NoDup (map callee (stack s)).

(** One round of the loop of [searchForMinimalDistance]: nothing when the
    loop has ended or the target is on top, one expansion step and the
    increment of the counter otherwise. *)
Definition loop_round (this : BFSearcher) : BFSearcher :=
  if loop_condition C this then
    match searchqueue this with
    | [] => this
    | top :: _ =>
        if isTheTarget C top then this
        else
          match doSingleSearchIteration M C this with
          | Ok this' => count_iteration this'
          | _ => this
          end
    end
  else this.

(** [later this this'] : [this'] comes from [this] by returning calls of
    [addToSearchQueue] and [popFromSeachQueue] and changes of the counter,
    in any order. *)
Inductive later : BFSearcher → BFSearcher → Prop :=
| later_refl this : later this this
| later_add this1 this2 s this3 :
    later this1 this2 →
    addToSearchQueue M C this2 s = Ok this3 →
    later this1 this3
| later_pop this1 this2 top this3 :
    later this1 this2 →
    popFromSeachQueue this2 = Ok (top, this3) →
    later this1 this3
| later_counter this1 this2 n :
    later this1 this2 →
    later this1 (with_iterationCounter this2 n).

End Notions.

(** * A small module to run the searcher on *)

Module Demo.

(** Function 0 has the blocks 0, 1 and 2:
    block 0 is [0: call of function 1; 1: call of function 2; 2: branch
    to the blocks 1 and 2], block 1 is [3: return], block 2 is [4: an
    ordinary instruction; 5: return].
    Function 1 has the block 3, which is [6: an ordinary instruction;
    7: return].  Function 2 is only declared.  Function 3 has the block 5,
    which is [8: call of function 3; 9: return]. *)
Definition module : LLVMModule :=
  {| getParent := fun i =>
       match i with
       | 0 | 1 | 2 => 0
       | 3 => 1
       | 4 | 5 => 2
       | 6 | 7 => 3
       | 8 | 9 => 5
       | _ => 4
       end;
     instructions := fun bb =>
       match bb with
       | 0 => [0; 1; 2]
       | 1 => [3]
       | 2 => [4; 5]
       | 3 => [6; 7]
       | 5 => [8; 9]
       | _ => []
       end;
     kind := fun i =>
       match i with
       | 0 | 1 | 8 => K_Call
       | 3 | 5 | 7 | 9 => K_Return
       | 2 => K_Terminator
       | _ => K_Other
       end;
     getCalledFunction := fun i =>
       match i with
       | 0 => Some 1
       | 1 => Some 2
       | 8 => Some 3
       | _ => None
       end;
     isIntrinsic := fun _ => false;
     blocks := fun f =>
       match f with
       | 0 => [0; 1; 2]
       | 1 => [3]
       | 3 => [5]
       | _ => []
       end;
     successors := fun bb =>
       match bb with
       | 0 => [1; 2]
       | _ => []
       end |}.

(** Every instruction weighs 1; the target is instruction 5. *)
Definition config (queueLength : Z) : Config :=
  {| maxDistance := 100;
     maxIterations := 50;
     maxQueueLength := queueLength;
     isTheTarget := fun s => bool_decide (instruction s = it_at 5);
     distanceToPass := fun _ => 1%Z |}.

(** A state at instruction [i] whose stack holds the call sites [stk],
    the top first. *)
Definition state_at (i : nat) (d : Z) (stk : list nat) : BFSearchState :=
  {| instruction := it_at i;
     distanceFromStart := d;
     stack := map (fun c => {| call := it_at c |}) stk |}.

(** The searcher as its constructor leaves it. *)
Definition started (queueLength : Z) (start : nat) (stk : list nat) : BFSearcher :=
  match BFSearcher_new module (config queueLength) start stk with
  | Ok this => this
  | _ => fresh
  end.

(** The searcher after [popFromSeachQueue]. *)
Definition after_pop (this : BFSearcher) : BFSearcher :=
  match popFromSeachQueue this with
  | Ok (_, this') => this'
  | _ => this
  end.


(** A searcher whose queue holds the target at distance 100. *)
Definition holding_far_target : BFSearcher :=
  {| searchqueue := [state_at 5 100 []];
     duplicateFilter := ∅;
     iterationCounter := 0;
     pushed := [state_at 5 100 []];
     popped := [] |}.

End Demo.

(** * A branch with many successors *)

Module Wide.

(** Every block [bb] holds the one instruction [bb].  Instruction 0 is a
    terminator whose block has the successor blocks [1 .. n]; every other
    instruction is a return. *)
Definition module (n : nat) : LLVMModule :=
  {| getParent := fun i => i;
     instructions := fun bb => [bb];
     kind := fun i => match i with 0 => K_Terminator | _ => K_Return end;
     getCalledFunction := fun _ => None;
     isIntrinsic := fun _ => false;
     blocks := fun _ => [];
     successors := fun bb => match bb with 0 => seq 1 n | _ => [] end |}.

Definition config (queueLength : Z) : Config :=
  {| maxDistance := 100;
     maxIterations := 50;
     maxQueueLength := queueLength;
     isTheTarget := fun _ => false;
     distanceToPass := fun _ => 1%Z |}.

End Wide.

(** * A call inside a loop *)

Module Loop.

(** Function 0 has the block 0, which is [0: an ordinary instruction;
    1: call of function 1; 2: branch to block 0].  Function 1 has the
    block 1, which is [3: return]. *)
Definition module : LLVMModule :=
  {| getParent := fun i =>
       match i with
       | 0 | 1 | 2 => 0
       | 3 => 1
       | _ => 2
       end;
     instructions := fun bb =>
       match bb with
       | 0 => [0; 1; 2]
       | 1 => [3]
       | _ => []
       end;
     kind := fun i =>
       match i with
       | 1 => K_Call
       | 2 => K_Terminator
       | 3 => K_Return
       | _ => K_Other
       end;
     getCalledFunction := fun i =>
       match i with
       | 1 => Some 1
       | _ => None
       end;
     isIntrinsic := fun _ => false;
     blocks := fun f =>
       match f with
       | 0 => [0]
       | 1 => [1]
       | _ => []
       end;
     successors := fun bb =>
       match bb with
       | 0 => [0]
       | _ => []
       end |}.

(** Every instruction weighs 1; nothing is the target. *)
Definition config : Config :=
  {| maxDistance := 100;
     maxIterations := 50;
     maxQueueLength := 10;
     isTheTarget := fun _ => false;
     distanceToPass := fun _ => 1%Z |}.

(** The searcher of the query started at the call, instruction 1. *)
Definition started : BFSearcher :=
  match BFSearcher_new module config 1 [] with
  | Ok this => this
  | _ => fresh
  end.

(** The searcher after four rounds of the loop: the call is on top of the
    queue for the second time. *)
Definition second_pass : BFSearcher :=
  Nat.iter 4 (loop_round module config) started.

End Loop.


(** * Properties of one expansion step *)

Section Step.

Context (M : LLVMModule) (C : Config).

Lemma cast_call_site e :
  is_call_site M e →
  ∃ c, call e = it_at c ∧ cast_CallInst M (call e) = Ok c
       ∧ callee M e = getCalledFunction M c.
Proof.
  intros (c & Hc & Hk). exists c. unfold callee, cast_CallInst.
  rewrite Hc, Hk. auto.
Qed.

Lemma probe_stack_spec nextcalled stk :
  Forall (is_call_site M) stk →
  ∃ b, probe_stack M nextcalled stk = Ok b
       ∧ (b = true ↔ ∃ e, e ∈ stk ∧ callee M e = nextcalled).
Proof.
  induction 1 as [|e stk He _ IH]; simpl.
  - exists false. split; [reflexivity|]. split; [discriminate|].
    intros (e & He & _). inversion He.
  - destruct (cast_call_site e He) as (c & _ & Hcast & Hcallee).
    rewrite Hcast. simpl.
    destruct (decide (nextcalled = getCalledFunction M c)) as [Heq|Hne].
    + exists true. split; [reflexivity|]. split; [|reflexivity].
      intros _. exists e. split; [left|congruence].
    + destruct IH as (b & Hb & Hiff). exists b. split; [exact Hb|].
      rewrite Hiff. split.
      * intros (e' & Hin & Heq). exists e'. split; [right; exact Hin|exact Heq].
      * intros (e' & Hin & Heq). apply elem_of_cons in Hin as [->|Hin].
        -- congruence.
        -- exists e'. split; assumption.
Qed.

Lemma doesIntroduceRecursion_call_sites this next :
  is_call_site M next → Forall (is_call_site M) (stack this) →
  ∃ b, doesIntroduceRecursion M this next = Ok b
       ∧ (b = true ↔ ∃ e, e ∈ stack this ∧ callee M e = callee M next).
Proof.
  intros Hnext Hstk. unfold doesIntroduceRecursion.
  destruct (stack this) as [|e stk] eqn:Hs.
  - exists false. split; [reflexivity|]. split; [discriminate|].
    intros (e & He & _). inversion He.
  - destruct (cast_call_site next Hnext) as (c & _ & Hcast & Hcallee).
    rewrite Hcast, Hcallee.
    exact (probe_stack_spec (getCalledFunction M c) (e :: stk) Hstk).
Qed.

(** C3.  An empty stack never introduces recursion.  When the probed entry
    and the entries of the stack are call sites, [doesIntroduceRecursion]
    returns, and it returns true exactly when some entry of the stack has
    the same called function ([getCalledFunction] of its call site) as the
    probed entry. *)
Theorem doesIntroduceRecursion_spec (this : BFSearchState) (next : BFStackEntry) :
  (stack this = [] → doesIntroduceRecursion M this next = Ok false)
  ∧ (is_call_site M next → Forall (is_call_site M) (stack this) →
     ∃ b, doesIntroduceRecursion M this next = Ok b
          ∧ (b = true ↔ ∃ e, e ∈ stack this ∧ callee M e = callee M next)).
Proof.
  split.
  - intros Hnil. unfold doesIntroduceRecursion. rewrite Hnil. reflexivity.
  - apply doesIntroduceRecursion_call_sites.
Qed.

(** The step at a call of a function that is resolved, not intrinsic and
    has a body, as an equation: the removal alone when
    [doesIntroduceRecursion] answers true, the removal followed by one
    [addToSearchQueue] otherwise. *)
Lemma defined_call_step
    (this this' : BFSearcher) (curr : BFSearchState) (c : Instruction)
    (called : Func) (entry : BasicBlock) (bbs : list BasicBlock)
    (first : Instruction) (insts : list Instruction) :
  popFromSeachQueue this = Ok (curr, this') →
  instruction curr = it_at c →
  isa_CallInst M c = true →
  getCalledFunction M c = Some called →
  isIntrinsic M called = false →
  blocks M called = entry :: bbs →
  instructions M entry = first :: insts →
  let next := {| call := it_at c |} in
  let succ := {| instruction := it_at first;
                 distanceFromStart :=
                   uint_add (distanceFromStart curr) (distanceToPass C c);
                 stack := next :: stack curr |} in
  (doesIntroduceRecursion M curr next = Ok true →
   doSingleSearchIteration M C this = Ok this')
  ∧ (doesIntroduceRecursion M curr next = Ok false →
     doSingleSearchIteration M C this = addToSearchQueue M C this' succ)
  ∧ ((0 ≤ distanceFromStart curr + distanceToPass C c ≤ UINT_MAX)%Z →
     distanceFromStart succ = (distanceFromStart curr + distanceToPass C c)%Z).
Proof.
  intros Hpop Hcurr Hcall Hcalled Hintr Hblocks Hinsts next succ.
  assert (Hhead : ∀ r, doesIntroduceRecursion M curr next = Ok r →
            doSingleSearchIteration M C this =
            if negb r then addToSearchQueue M C this' succ else Ok this').
  { intros r Hr. unfold doSingleSearchIteration. rewrite Hpop. simpl mbind.
    rewrite Hcurr, Hcall, Hcalled, Hintr. unfold fn_empty, fn_front.
    rewrite Hblocks. simpl negb. simpl andb. cbv iota.
    fold next. rewrite Hr. simpl mbind. destruct r; simpl negb; cbv iota.
    - reflexivity.
    - unfold enqueueInSearchQueue, with_stack, bb_begin. simpl.
      rewrite Hcurr, Hinsts. reflexivity. }
  split; [|split].
  - intros Hr. rewrite (Hhead _ Hr). reflexivity.
  - intros Hr. rewrite (Hhead _ Hr). reflexivity.
  - intros Hrange. unfold succ, uint_add, UINT_MAX in *. simpl.
    apply Z.mod_small. lia.
Qed.

(** [++] on the position of [i] gives the position of the instruction that
    follows [i] in the list of its block. *)
Lemma next_in_following bb i nxt pre post :
  i ∉ pre → next_in bb i (pre ++ i :: nxt :: post) = Some (it_at nxt).
Proof.
  induction pre as [|x pre IH]; intros Hnotin; simpl.
  - destruct (decide (i = i)); [reflexivity|congruence].
  - destruct (decide (x = i)) as [->|Hne].
    + exfalso. apply Hnotin. left.
    + apply IH. intros Hin. apply Hnotin. right. exact Hin.
Qed.

Lemma incr_following i nxt pre post :
  instructions M (getParent M i) = pre ++ i :: nxt :: post →
  i ∉ pre →
  incr M (it_at i) = Ok (it_at nxt).
Proof.
  intros Hl Hnotin. unfold incr. rewrite Hl.
  rewrite (next_in_following _ _ _ _ _ Hnotin). reflexivity.
Qed.

Lemma uint_add_exact a b :
  (0 ≤ a + b ≤ UINT_MAX)%Z → uint_add a b = (a + b)%Z.
Proof. intros H. unfold uint_add, UINT_MAX in *. apply Z.mod_small. lia. Qed.

(** The step at a return instruction, as an equation: the removal alone
    with an empty stack, the removal followed by one [addToSearchQueue]
    otherwise. *)
Lemma return_step
    (this this' : BFSearcher) (curr : BFSearchState) (r : Instruction) :
  popFromSeachQueue this = Ok (curr, this') →
  instruction curr = it_at r →
  isa_ReturnInst M r = true →
  (stack curr = [] → doSingleSearchIteration M C this = Ok this')
  ∧ (∀ gobackto rest cs nxt pre post,
       stack curr = gobackto :: rest →
       call gobackto = it_at cs →
       instructions M (getParent M cs) = pre ++ cs :: nxt :: post →
       cs ∉ pre →
       doSingleSearchIteration M C this =
       addToSearchQueue M C this'
         {| instruction := it_at nxt;
            distanceFromStart :=
              uint_add (distanceFromStart curr) (distanceToPass C r);
            stack := rest |}
       ∧ ((0 ≤ distanceFromStart curr + distanceToPass C r ≤ UINT_MAX)%Z →
          uint_add (distanceFromStart curr) (distanceToPass C r) =
          (distanceFromStart curr + distanceToPass C r)%Z)).
Proof.
  intros Hpop Hcurr Hret.
  assert (Hnocall : isa_CallInst M r = false).
  { unfold isa_ReturnInst, isa_CallInst in *. destruct (kind M r); congruence. }
  split.
  - intros Hnil. unfold doSingleSearchIteration. rewrite Hpop. simpl mbind.
    rewrite Hcurr, Hnocall, Hret, Hnil. reflexivity.
  - intros gobackto rest cs nxt pre post Hstk Hcs Hl Hnotin. split.
    + unfold doSingleSearchIteration. rewrite Hpop. simpl mbind.
      rewrite Hcurr, Hnocall, Hret, Hstk, Hcs.
      rewrite (incr_following _ _ _ _ Hl Hnotin). simpl mbind.
      unfold enqueueInSearchQueue, with_stack. simpl. rewrite Hcurr.
      reflexivity.
    + apply uint_add_exact.
Qed.

(** The step at a call whose callee is unresolved, intrinsic or without
    a body, as an equation: the removal followed by one
    [addToSearchQueue]. *)
Lemma external_call_step
    (this this' : BFSearcher) (curr : BFSearchState) (c nxt : Instruction)
    (pre post : list Instruction) :
  popFromSeachQueue this = Ok (curr, this') →
  instruction curr = it_at c →
  isa_CallInst M c = true →
  external_call M c →
  instructions M (getParent M c) = pre ++ c :: nxt :: post →
  c ∉ pre →
  doSingleSearchIteration M C this =
  addToSearchQueue M C this'
    {| instruction := it_at nxt;
       distanceFromStart :=
         uint_add (distanceFromStart curr) (distanceToPass C c);
       stack := stack curr |}
  ∧ ((0 ≤ distanceFromStart curr + distanceToPass C c ≤ UINT_MAX)%Z →
     uint_add (distanceFromStart curr) (distanceToPass C c) =
     (distanceFromStart curr + distanceToPass C c)%Z).
Proof.
  intros Hpop Hcurr Hcall Hext Hl Hnotin. split; [|apply uint_add_exact].
  assert (Hnext : enqueue_next M C this' curr =
                  addToSearchQueue M C this'
                    {| instruction := it_at nxt;
                       distanceFromStart :=
                         uint_add (distanceFromStart curr) (distanceToPass C c);
                       stack := stack curr |}).
  { unfold enqueue_next. rewrite Hcurr.
    rewrite (incr_following _ _ _ _ Hl Hnotin). simpl mbind.
    unfold enqueueInSearchQueue. rewrite Hcurr. reflexivity. }
  unfold doSingleSearchIteration. rewrite Hpop. simpl mbind.
  rewrite Hcurr, Hcall.
  destruct Hext as [Hnone|(f & Hsome & [Hintr|Hempty])].
  - rewrite Hnone. exact Hnext.
  - rewrite Hsome, Hintr. exact Hnext.
  - rewrite Hsome. unfold fn_empty. rewrite Hempty.
    rewrite andb_false_r. exact Hnext.
Qed.

End Step.

(** * Invariants of the searcher object *)

Section Invariants.

Context (M : LLVMModule) (C : Config).

Lemma uint_add_range a b : uint_range (uint_add a b).
Proof.
  unfold uint_range, uint_add, UINT_MAX.
  pose proof (Z.mod_pos_bound (a + b) 4294967296 ltac:(lia)). lia.
Qed.

Lemma pq_push_perm s q : pq_push s q ≡ₚ s :: q.
Proof.
  induction q as [|x r IH]; simpl; [reflexivity|].
  destruct (distanceFromStart s <? distanceFromStart x)%Z; [reflexivity|].
  rewrite IH. apply Permutation_swap.
Qed.

Lemma pq_push_length s q : length (pq_push s q) = S (length q).
Proof. rewrite (Permutation_length (pq_push_perm s q)). reflexivity. Qed.

Lemma pq_push_sorted s q :
  StronglySorted by_distance q → StronglySorted by_distance (pq_push s q).
Proof.
  induction 1 as [|x r Hr IH Hx]; simpl.
  - repeat constructor.
  - destruct (distanceFromStart s <? distanceFromStart x)%Z eqn:Hlt.
    + apply Z.ltb_lt in Hlt. constructor; [constructor; assumption|].
      constructor; [unfold by_distance; lia|].
      eapply Forall_impl; [exact Hx|]. unfold by_distance. intros; simpl in *. lia.
    + apply Z.ltb_ge in Hlt. constructor; [exact IH|].
      rewrite (pq_push_perm s r). constructor; assumption.
Qed.

Lemma wasAddedEarlier_key this s b :
  wasAddedEarlier M this s = Ok b →
  match block_entry_key M s with
  | Some k => b = bool_decide (k ∈ duplicateFilter this)
  | None => b = false
  end.
Proof.
  unfold wasAddedEarlier, block_entry_key, deref, bb_front.
  destruct (instruction s) as [|i|bb]; simpl; try discriminate.
  destruct (instructions M (getParent M i)) as [|f l]; simpl; try discriminate.
  destruct (decide (f = i)); intros [= <-]; reflexivity.
Qed.

Lemma rememberAsAdded_key this s this' :
  rememberAsAdded M this s = Ok this' →
  searchqueue this' = searchqueue this
  ∧ iterationCounter this' = iterationCounter this
  ∧ pushed this' = pushed this
  ∧ popped this' = popped this
  ∧ duplicateFilter this' =
      match block_entry_key M s with
      | Some k => {[ k ]} ∪ duplicateFilter this
      | None => duplicateFilter this
      end.
Proof.
  unfold rememberAsAdded, block_entry_key, deref, bb_front.
  destruct (instruction s) as [|i|bb]; simpl; try discriminate.
  destruct (instructions M (getParent M i)) as [|f l]; simpl; try discriminate.
  destruct (decide (f = i)); intros [= <-]; simpl; auto.
Qed.

(** What a returning [addToSearchQueue] does: nothing, or one [push] and
    the recording of the key of the state. *)
Lemma addToSearchQueue_cases this s this' :
  addToSearchQueue M C this s = Ok this' →
  this' = this
  ∨ ((Z.of_nat (length (searchqueue this)) ≤ size_t_of (maxQueueLength C))%Z
     ∧ searchqueue this' = pq_push s (searchqueue this)
     ∧ iterationCounter this' = iterationCounter this
     ∧ pushed this' = s :: pushed this
     ∧ popped this' = popped this
     ∧ match block_entry_key M s with
       | Some k => (k ∉ duplicateFilter this)
                   ∧ (duplicateFilter this' = {[ k ]} ∪ duplicateFilter this)
       | None => duplicateFilter this' = duplicateFilter this
       end).
Proof.
  unfold addToSearchQueue. intros H.
  destruct (wasAddedEarlier M this s) as [seen| |] eqn:Hseen; try discriminate.
  simpl in H. apply wasAddedEarlier_key in Hseen.
  destruct (negb seen
            && (Z.of_nat (length (searchqueue this))
                <=? size_t_of (maxQueueLength C))%Z)
    eqn:Hguard.
  - right. apply andb_true_iff in Hguard as [Hns Hsz].
    apply Z.leb_le in Hsz. apply negb_true_iff in Hns. subst seen.
    apply rememberAsAdded_key in H. simpl in H.
    destruct H as (Hq & Hc & Hp & Hpo & Hf).
    repeat (split; [assumption|]).
    destruct (block_entry_key M s) as [k|]; [|exact Hf].
    split; [|exact Hf]. symmetry in Hseen.
    apply bool_decide_eq_false in Hseen. exact Hseen.
  - left. congruence.
Qed.

Lemma size_t_of_range z : (0 ≤ size_t_of z ≤ SIZE_MAX)%Z.
Proof.
  unfold size_t_of, SIZE_MAX.
  pose proof (Z.mod_pos_bound z 18446744073709551616 ltac:(lia)). lia.
Qed.

Lemma size_t_of_small z : (0 ≤ z ≤ SIZE_MAX)%Z → size_t_of z = z.
Proof. unfold size_t_of, SIZE_MAX. intros H. apply Z.mod_small. lia. Qed.

Lemma Inv_fresh : Inv M C fresh.
Proof.
  constructor; simpl.
  - pose proof (size_t_of_range (maxQueueLength C)). lia.
  - constructor.
  - intros k Hk. inversion Hk.
  - reflexivity.
  - constructor.
  - constructor.
Qed.

Lemma Inv_addToSearchQueue this s this' :
  uint_range (distanceFromStart s) →
  Inv M C this → addToSearchQueue M C this s = Ok this' → Inv M C this'.
Proof.
  intros Hrange HI Hadd.
  destruct (addToSearchQueue_cases _ _ _ Hadd)
    as [->|(Hsz & Hq & Hc & Hp & Hpo & Hf)]; [exact HI|].
  destruct HI as [Isz Ind Ifl Ipm Iso Irg].
  constructor.
  - rewrite Hq, pq_push_length. lia.
  - rewrite Hp. unfold entry_keys in *. simpl.
    destruct (block_entry_key M s) as [k|]; [|exact Ind].
    constructor; [|exact Ind].
    intros Hin. destruct Hf as [Hnot _]. apply Hnot, Ifl, Hin.
  - intros k. rewrite Hp. unfold entry_keys in *. simpl.
    destruct (block_entry_key M s) as [k0|].
    + destruct Hf as [_ ->]. intros Hin.
      apply elem_of_cons in Hin as [->|Hin]; [set_solver|].
      apply Ifl in Hin. set_solver.
    + rewrite Hf. apply Ifl.
  - rewrite Hp, Hq, Hpo, pq_push_perm. simpl. constructor. exact Ipm.
  - rewrite Hq. apply pq_push_sorted, Iso.
  - rewrite Hp. constructor; assumption.
Qed.

Lemma popFromSeachQueue_cases this top this' :
  popFromSeachQueue this = Ok (top, this') →
  searchqueue this = top :: searchqueue this'
  ∧ duplicateFilter this' = duplicateFilter this
  ∧ iterationCounter this' = iterationCounter this
  ∧ pushed this' = pushed this
  ∧ popped this' = top :: popped this.
Proof.
  unfold popFromSeachQueue. destruct (searchqueue this) as [|x r]; [discriminate|].
  intros [= <- <-]. simpl. auto.
Qed.

Lemma Inv_popFromSeachQueue this top this' :
  Inv M C this → popFromSeachQueue this = Ok (top, this') → Inv M C this'.
Proof.
  intros [Isz Ind Ifl Ipm Iso Irg] Hpop.
  apply popFromSeachQueue_cases in Hpop as (Hq & Hf & Hc & Hp & Hpo).
  rewrite Hq in *. constructor.
  - simpl length in Isz. lia.
  - rewrite Hp. exact Ind.
  - rewrite Hp, Hf. exact Ifl.
  - rewrite Hp, Hpo, Ipm. simpl. apply Permutation_middle.
  - inversion Iso; assumption.
  - rewrite Hp. exact Irg.
Qed.

Lemma Inv_with_iterationCounter this n :
  Inv M C this → Inv M C (with_iterationCounter this n).
Proof. intros []. constructor; assumption. Qed.

End Invariants.

(** * The states of a query *)

Section Query.

Context (M : LLVMModule) (C : Config).

Lemma reachable_Inv this : reachable M C this → Inv M C this.
Proof.
  induction 1.
  - apply Inv_fresh.
  - eapply Inv_addToSearchQueue; eassumption.
  - eapply Inv_popFromSeachQueue; eassumption.
  - apply Inv_with_iterationCounter. assumption.
Qed.

Lemma reachable_adds this this' : adds M C this this' → reachable M C this → reachable M C this'.
Proof.
  induction 1; intros Hr; [exact Hr|].
  apply IHadds. eapply reach_add; eassumption.
Qed.

Lemma adds_one this s this' :
  uint_range (distanceFromStart s) →
  addToSearchQueue M C this s = Ok this' → adds M C this this'.
Proof. intros. eapply adds_cons; [eassumption|eassumption|apply adds_nil]. Qed.

Lemma adds_keeps this this' :
  adds M C this this' →
  popped this' = popped this ∧ iterationCounter this' = iterationCounter this.
Proof.
  induction 1 as [|this s this1 this2 _ Hadd _ [IH1 IH2]]; [auto|].
  destruct (addToSearchQueue_cases _ _ _ _ _ Hadd)
    as [->|(_ & _ & Hc & _ & Hpo & _)]; [auto|].
  split; congruence.
Qed.

Lemma enqueueInSearchQueue_adds this old next stk this' :
  enqueueInSearchQueue M C this old next stk = Ok this' → adds M C this this'.
Proof.
  unfold enqueueInSearchQueue.
  destruct (deref (instruction old)) as [i| |]; try discriminate.
  simpl. intros H. eapply adds_one; [|exact H]. apply uint_add_range.
Qed.

Lemma enqueue_next_adds this curr this' :
  enqueue_next M C this curr = Ok this' → adds M C this this'.
Proof.
  unfold enqueue_next.
  destruct (incr M (instruction curr)) as [nxt| |]; try discriminate.
  apply enqueueInSearchQueue_adds.
Qed.

Lemma adds_trans this1 this2 this3 :
  adds M C this1 this2 → adds M C this2 this3 → adds M C this1 this3.
Proof.
  induction 1; intros H3; [exact H3|].
  eapply adds_cons; [eassumption|eassumption|]. apply IHadds, H3.
Qed.

Lemma enqueue_successors_adds succs : ∀ this curr this',
  enqueue_successors M C this curr succs = Ok this' → adds M C this this'.
Proof.
  induction succs as [|sb succs IH]; intros this curr this'; simpl.
  - intros [= <-]. apply adds_nil.
  - destruct (enqueueInSearchQueue M C this curr (bb_begin M sb) (stack curr))
      as [this1| |] eqn:H1; try discriminate.
    simpl. intros H2. eapply adds_trans.
    + eapply enqueueInSearchQueue_adds, H1.
    + eapply IH, H2.
Qed.

(** One step removes the top of the queue and then only adds. *)
Lemma doSingleSearchIteration_shape this this' :
  doSingleSearchIteration M C this = Ok this' →
  ∃ curr this1 i,
    popFromSeachQueue this = Ok (curr, this1)
    ∧ instruction curr = it_at i
    ∧ adds M C this1 this'.
Proof.
  unfold doSingleSearchIteration.
  destruct (popFromSeachQueue this) as [[curr this1]| |] eqn:Hpop; try discriminate.
  simpl mbind. destruct (instruction curr) as [|i|bb] eqn:Hi; try discriminate.
  intros H. exists curr, this1, i. split; [reflexivity|]. split; [exact Hi|].
  destruct (isa_CallInst M i).
  - destruct (getCalledFunction M i) as [called|];
      [|eapply enqueue_next_adds, H].
    destruct (negb (isIntrinsic M called) && negb (fn_empty M called));
      [|eapply enqueue_next_adds, H].
    destruct (doesIntroduceRecursion M curr {| call := it_at i |})
      as [rec| |]; try discriminate.
    simpl in H. destruct rec; simpl in H.
    + injection H as <-. apply adds_nil.
    + destruct (fn_front M called) as [entry| |]; try discriminate.
      eapply enqueueInSearchQueue_adds, H.
  - destruct (isa_ReturnInst M i).
    + destruct (stack curr) as [|gobackto rest].
      * injection H as <-. apply adds_nil.
      * destruct (incr M (call gobackto)) as [nxt| |]; try discriminate.
        eapply enqueueInSearchQueue_adds, H.
    + destruct (isa_TerminatorInst M i).
      * eapply enqueue_successors_adds, H.
      * eapply enqueue_next_adds, H.
Qed.

Lemma reachable_doSingleSearchIteration this this' :
  reachable M C this → doSingleSearchIteration M C this = Ok this' → reachable M C this'.
Proof.
  intros Hr H. apply doSingleSearchIteration_shape in H
    as (curr & this1 & i & Hpop & _ & Hadds).
  eapply reachable_adds; [exact Hadds|]. eapply reach_pop; eassumption.
Qed.

Lemma BFSearcher_new_shape start stk this :
  BFSearcher_new M C start stk = Ok this →
  ∃ this0, addToSearchQueue M C fresh (BFSearchState_new M start 0 stk) = Ok this0
           ∧ this = with_iterationCounter this0 0.
Proof.
  unfold BFSearcher_new.
  destruct (addToSearchQueue M C fresh (BFSearchState_new M start 0 stk))
    as [this0| |]; try discriminate.
  simpl. intros [= <-]. eauto.
Qed.

Lemma reachable_BFSearcher_new start stk this :
  BFSearcher_new M C start stk = Ok this → reachable M C this.
Proof.
  intros H. apply BFSearcher_new_shape in H as (this0 & Hadd & ->).
  apply reach_counter. eapply reach_add; [apply reach_fresh| |exact Hadd].
  simpl. unfold uint_range, UINT_MAX. lia.
Qed.

Lemma during_query_reachable start stk this :
  during_query M C start stk this → reachable M C this.
Proof.
  induction 1.
  - eapply reachable_BFSearcher_new; eassumption.
  - apply reach_counter. eapply reachable_doSingleSearchIteration; eassumption.
Qed.

Lemma loop_condition_true this :
  loop_condition C this = true →
  ∃ top rest, searchqueue this = top :: rest
              ∧ (distanceFromStart top < maxDistance C)%Z
              ∧ (iterationCounter this < maxIterations C)%Z.
Proof.
  unfold loop_condition. destruct (searchqueue this) as [|top rest]; [discriminate|].
  intros H. apply andb_true_iff in H as [H1 H2].
  apply Z.ltb_lt in H1. apply Z.ltb_lt in H2. eauto.
Qed.

Lemma loop_condition_false this :
  loop_condition C this = false →
  searchqueue this = []
  ∨ (∃ top rest, searchqueue this = top :: rest
                 ∧ (maxDistance C ≤ distanceFromStart top)%Z)
  ∨ (maxIterations C ≤ iterationCounter this)%Z.
Proof.
  unfold loop_condition. destruct (searchqueue this) as [|top rest]; [auto|].
  intros H. apply andb_false_iff in H as [H|H]; apply Z.ltb_ge in H.
  - right. left. eauto.
  - right. right. exact H.
Qed.

(** While the loop runs, [iterationCounter] is the number of expansion
    steps made so far. *)
Lemma during_query_counter start stk this :
  (maxIterations C ≤ UINT_MAX)%Z →
  during_query M C start stk this →
  iterationCounter this = Z.of_nat (length (popped this))
  ∧ (popped this = [] ∨ (iterationCounter this ≤ maxIterations C)%Z).
Proof.
  intros Hmax. induction 1 as [this Hnew|this top rest this' _ [IHc _] Hcond Hq Ht Hstep].
  - apply BFSearcher_new_shape in Hnew as (this0 & Hadd & ->). simpl.
    apply adds_one in Hadd; [|simpl; unfold uint_range, UINT_MAX; lia].
    apply adds_keeps in Hadd as [-> _]. simpl. auto.
  - apply loop_condition_true in Hcond as (_ & _ & _ & _ & Hlt).
    apply doSingleSearchIteration_shape in Hstep
      as (curr & this1 & i & Hpop & _ & Hadds).
    apply adds_keeps in Hadds as [Hpo Hc].
    apply popFromSeachQueue_cases in Hpop as (_ & _ & Hc1 & _ & Hpo1).
    simpl. rewrite Hpo, Hpo1, Hc, Hc1. simpl length.
    assert (Hge : (0 ≤ iterationCounter this)%Z) by lia.
    rewrite uint_add_exact by (unfold UINT_MAX in *; lia).
    split; [lia|]. right. lia.
Qed.

Lemma search_loop_during start stk fuel : ∀ this r this',
  during_query M C start stk this →
  search_loop M C fuel this = Some (Ok (r, this')) →
  during_query M C start stk this'.
Proof.
  induction fuel as [|fuel IH]; intros this r this' Hdq; simpl;
    destruct (loop_condition C this) eqn:Hcond;
    try (intros [= _ <-]; exact Hdq);
    destruct (searchqueue this) as [|top rest] eqn:Hq; try discriminate;
    destruct (isTheTarget C top) eqn:Ht;
    try (intros [= _ <-]; exact Hdq); try discriminate.
  destruct (doSingleSearchIteration M C this) as [this1| |] eqn:Hstep;
    try discriminate.
  apply IH. eapply dq_iteration; eassumption.
Qed.

Lemma query_during start stk r this :
  query M C start stk = Some (Ok (r, this)) → during_query M C start stk this.
Proof.
  unfold query. destruct (BFSearcher_new M C start stk) as [this0| |] eqn:Hnew;
    try discriminate.
  unfold searchForMinimalDistance. apply search_loop_during.
  apply dq_start. exact Hnew.
Qed.

(** What the loop returns, and in which object. *)
Lemma search_loop_result fuel : ∀ this r this',
  search_loop M C fuel this = Some (Ok (r, this')) →
  (r = UNREACHABLE ∧ loop_condition C this' = false)
  ∨ (∃ top rest, searchqueue this' = top :: rest
                 ∧ isTheTarget C top = true
                 ∧ r = distanceFromStart top
                 ∧ (distanceFromStart top < maxDistance C)%Z).
Proof.
  induction fuel as [|fuel IH]; intros this r this'; simpl;
    destruct (loop_condition C this) eqn:Hcond;
    try (intros [= <- <-]; left; split; [reflexivity|exact Hcond]);
    destruct (loop_condition_true _ Hcond) as (top & rest & Hq & Hd & _);
    rewrite Hq; destruct (isTheTarget C top) eqn:Ht;
    try (intros [= <- <-]; right; exists top, rest; auto); try discriminate.
  destruct (doSingleSearchIteration M C this) as [this1| |]; try discriminate.
  apply IH.
Qed.

(** The loop ends within [maxIterations - iterationCounter] rounds. *)
Lemma search_loop_fuel fuel : ∀ this,
  (0 ≤ iterationCounter this)%Z →
  (maxIterations C ≤ UINT_MAX)%Z →
  (maxIterations C - iterationCounter this ≤ Z.of_nat fuel)%Z →
  search_loop M C fuel this ≠ None.
Proof.
  induction fuel as [|fuel IH]; intros this Hge Hmax Hfuel; simpl;
    destruct (loop_condition C this) eqn:Hcond; try discriminate;
    destruct (loop_condition_true _ Hcond) as (top & rest & Hq & _ & Hlt);
    rewrite Hq; destruct (isTheTarget C top); try discriminate.
  - lia.
  - destruct (doSingleSearchIteration M C this) as [this1| |] eqn:Hstep;
      try discriminate.
    apply doSingleSearchIteration_shape in Hstep
      as (curr & this0 & i & Hpop & _ & Hadds).
    apply adds_keeps in Hadds as [_ Hc].
    apply popFromSeachQueue_cases in Hpop as (_ & _ & Hc1 & _ & _).
    assert (Hcount : iterationCounter (count_iteration this1)
                     = (iterationCounter this + 1)%Z).
    { simpl. rewrite Hc, Hc1. apply uint_add_exact. unfold UINT_MAX in *. lia. }
    apply IH; rewrite ?Hcount; lia.
Qed.

Lemma searchForMinimalDistance_returns this :
  (0 ≤ iterationCounter this)%Z →
  (maxIterations C ≤ UINT_MAX)%Z →
  searchForMinimalDistance M C this ≠ None.
Proof.
  intros Hge Hmax. unfold searchForMinimalDistance.
  apply search_loop_fuel; [assumption|assumption|lia].
Qed.

Lemma query_returns start stk :
  (maxIterations C ≤ UINT_MAX)%Z → query M C start stk ≠ None.
Proof.
  intros Hmax. unfold query.
  destruct (BFSearcher_new M C start stk) as [this| |] eqn:Hnew; try discriminate.
  apply searchForMinimalDistance_returns; [|exact Hmax].
  apply BFSearcher_new_shape in Hnew as (this0 & _ & ->). simpl. lia.
Qed.

End Query.

(** * Well-formed modules: the query returns *)

Section WellFormed.

Context (M : LLVMModule) (C : Config).

Lemma entry_ok_call_site e : entry_ok M e → is_call_site M e.
Proof. intros (c & Hc & _ & Hk). exists c. auto. Qed.

Lemma scan_block_linked bb i l : i ∈ l → scan_block bb i l = it_at i.
Proof.
  induction l as [|x l IH]; intros Hin; [inversion Hin|]. simpl.
  destruct (decide (x = i)) as [->|Hne]; [reflexivity|].
  apply elem_of_cons in Hin as [->|Hin]; [congruence|]. apply IH, Hin.
Qed.

Lemma getIteratorOnInstruction_linked i :
  linked M i → getIteratorOnInstruction M i = it_at i.
Proof. intros H. apply scan_block_linked, H. Qed.

Lemma next_in_elem bb i l j : next_in bb i l = Some (it_at j) → j ∈ l.
Proof.
  induction l as [|x l IH]; simpl; [discriminate|].
  destruct (decide (x = i)).
  - destruct l as [|y l]; intros [= <-]. right. left.
  - intros H. right. apply IH, H.
Qed.

Lemma incr_linked i j :
  well_formed M → incr M (it_at i) = Ok (it_at j) → linked M j.
Proof.
  intros WF. unfold incr.
  destruct (next_in (getParent M i) i (instructions M (getParent M i)))
    as [nxt|] eqn:Hn; [|discriminate].
  intros [= ->]. apply next_in_elem in Hn. unfold linked.
  rewrite (wf_parent M WF _ _ Hn). exact Hn.
Qed.

Lemma bb_begin_linked bb :
  well_formed M → instructions M bb ≠ [] →
  ∃ f, bb_begin M bb = it_at f ∧ linked M f.
Proof.
  intros WF Hne. unfold bb_begin, linked.
  destruct (instructions M bb) as [|f l] eqn:Hl; [congruence|].
  exists f. split; [reflexivity|].
  assert (Hin : f ∈ instructions M bb) by (rewrite Hl; left).
  rewrite (wf_parent M WF _ _ Hin). exact Hin.
Qed.

Lemma call_not_terminator c :
  isa_CallInst M c = true → isa_TerminatorInst M c = false.
Proof. unfold isa_CallInst, isa_TerminatorInst. destruct (kind M c); congruence. Qed.

Lemma addToSearchQueue_ok this s :
  state_ok M s → queue_ok M this →
  ∃ this', addToSearchQueue M C this s = Ok this' ∧ queue_ok M this'.
Proof.
  intros Hs Hq. pose proof Hs as [(i & Hi & Hlinked) _].
  assert (Hfront : ∃ f, bb_front M (getParent M i) = Ok f).
  { unfold bb_front. unfold linked in Hlinked.
    destruct (instructions M (getParent M i)) as [|f l]; [inversion Hlinked|eauto]. }
  destruct Hfront as (f & Hf).
  unfold addToSearchQueue, wasAddedEarlier, rememberAsAdded.
  rewrite Hi. simpl. rewrite Hf. simpl.
  destruct (decide (f = i)); simpl;
    match goal with
    | |- context [if ?b then _ else _] => destruct b
    end; eexists; (split; [reflexivity|]);
      unfold queue_ok in *; simpl; rewrite ?pq_push_perm; auto.
Qed.

Lemma enqueueInSearchQueue_ok this old i next stk :
  instruction old = it_at i →
  state_ok M {| instruction := next;
              distanceFromStart := uint_add (distanceFromStart old) (distanceToPass C i);
              stack := stk |} →
  queue_ok M this →
  ∃ this', enqueueInSearchQueue M C this old next stk = Ok this' ∧ queue_ok M this'.
Proof.
  intros Hi Hs Hq. unfold enqueueInSearchQueue. rewrite Hi. simpl.
  apply addToSearchQueue_ok; assumption.
Qed.

Lemma enqueue_next_ok this curr i :
  well_formed M → state_ok M curr → instruction curr = it_at i →
  isa_TerminatorInst M i = false → queue_ok M this →
  ∃ this', enqueue_next M C this curr = Ok this' ∧ queue_ok M this'.
Proof.
  intros WF [(i' & Hi' & Hl) Hstk] Hi Hnt Hq.
  assert (i' = i) by congruence. subst i'.
  destruct (wf_next M WF i Hl Hnt) as (j & Hj).
  unfold enqueue_next. rewrite Hi, Hj. simpl.
  eapply enqueueInSearchQueue_ok; [exact Hi| |exact Hq].
  split; simpl; [|exact Hstk]. exists j. split; [reflexivity|].
  eapply incr_linked; eassumption.
Qed.

Lemma enqueue_successors_ok curr i succs :
  well_formed M → state_ok M curr → instruction curr = it_at i →
  (∀ bb, bb ∈ succs → instructions M bb ≠ []) →
  ∀ this, queue_ok M this →
  ∃ this', enqueue_successors M C this curr succs = Ok this' ∧ queue_ok M this'.
Proof.
  intros WF Hcurr Hi. induction succs as [|sb succs IH]; intros Hne this Hq; simpl.
  - eauto.
  - destruct (bb_begin_linked sb WF) as (f & Hf & Hl); [apply Hne; left|].
    destruct (enqueueInSearchQueue_ok this curr i (bb_begin M sb) (stack curr))
      as (this1 & H1 & Hq1); [exact Hi| |exact Hq|].
    { split; simpl; [eauto|apply Hcurr]. }
    rewrite H1. simpl. apply IH; [|exact Hq1].
    intros bb Hbb. apply Hne. right. exact Hbb.
Qed.

Lemma doSingleSearchIteration_ok this :
  well_formed M → queue_ok M this → searchqueue this ≠ [] →
  ∃ this', doSingleSearchIteration M C this = Ok this' ∧ queue_ok M this'.
Proof.
  intros WF Hq Hne. unfold doSingleSearchIteration, popFromSeachQueue.
  destruct (searchqueue this) as [|curr rest] eqn:Hsq; [congruence|].
  simpl mbind. unfold queue_ok in Hq. rewrite Hsq in Hq.
  apply Forall_cons in Hq as [Hcurr Hrest].
  set (this1 := {| searchqueue := rest;
                   duplicateFilter := duplicateFilter this;
                   iterationCounter := iterationCounter this;
                   pushed := pushed this;
                   popped := curr :: popped this |}).
  assert (Hq1 : queue_ok M this1) by exact Hrest.
  pose proof Hcurr as [(i & Hi & Hl) Hstk]. rewrite Hi.
  destruct (isa_CallInst M i) eqn:Hcall.
  - pose proof (call_not_terminator i Hcall) as Hnt.
    destruct (getCalledFunction M i) as [called|] eqn:Hcalled;
      [|eapply enqueue_next_ok; eassumption].
    destruct (negb (isIntrinsic M called) && negb (fn_empty M called)) eqn:Hdef;
      [|eapply enqueue_next_ok; eassumption].
    assert (Hnext : entry_ok M {| call := it_at i |}) by (exists i; auto).
    destruct (doesIntroduceRecursion_call_sites M curr {| call := it_at i |})
      as (rec & Hrec & _).
    { apply entry_ok_call_site, Hnext. }
    { eapply Forall_impl; [exact Hstk|]. apply entry_ok_call_site. }
    rewrite Hrec. simpl mbind. destruct rec; simpl negb; cbv iota; [eauto|].
    apply andb_true_iff in Hdef as [_ Hempty]. unfold fn_empty in Hempty.
    unfold fn_front. destruct (blocks M called) as [|entry bbs] eqn:Hb;
      [discriminate|]. simpl mbind.
    destruct (bb_begin_linked entry WF) as (f & Hf & Hlf).
    { eapply wf_entry; eassumption. }
    eapply enqueueInSearchQueue_ok; [exact Hi| |exact Hq1].
    split; simpl; [eauto|]. constructor; assumption.
  - destruct (isa_ReturnInst M i) eqn:Hret.
    + destruct (stack curr) as [|gobackto rest'] eqn:Hs; [eauto|].
      apply Forall_cons in Hstk as [(c & Hc & Hlc & Hkc) Hrest'].
      destruct (wf_next M WF c Hlc (call_not_terminator c Hkc)) as (j & Hj).
      rewrite Hc, Hj. simpl mbind.
      eapply enqueueInSearchQueue_ok; [exact Hi| |exact Hq1].
      split; simpl; [|exact Hrest']. exists j. split; [reflexivity|].
      eapply incr_linked; eassumption.
    + destruct (isa_TerminatorInst M i) eqn:Hterm.
      * eapply enqueue_successors_ok; try eassumption.
        intros bb Hbb. eapply wf_succ; eassumption.
      * eapply enqueue_next_ok; eassumption.
Qed.

Lemma search_loop_ok fuel : ∀ this res,
  well_formed M → queue_ok M this →
  search_loop M C fuel this = Some res →
  ∃ r this', res = Ok (r, this').
Proof.
  induction fuel as [|fuel IH]; intros this res WF Hq; simpl;
    destruct (loop_condition C this) eqn:Hcond;
    try (intros [= <-]; eauto);
    destruct (loop_condition_true _ _ Hcond) as (top & rest & Hsq & _);
    rewrite Hsq; destruct (isTheTarget C top); try (intros [= <-]; eauto);
    try discriminate.
  destruct (doSingleSearchIteration_ok this WF Hq) as (this1 & H1 & Hq1);
    [congruence|].
  rewrite H1. apply IH; [exact WF|exact Hq1].
Qed.

Lemma BFSearchState_new_ok start d stk :
  linked M start → stack_ok M stk → state_ok M (BFSearchState_new M start d stk).
Proof.
  intros Hs Hstk. split; simpl.
  - exists start. split; [apply getIteratorOnInstruction_linked, Hs|exact Hs].
  - assert (Hgen : ∀ acc, Forall (entry_ok M) acc →
              Forall (entry_ok M)
                (fold_left (fun st it => {| call := getIteratorOnInstruction M it |} :: st)
                   stk acc)).
    { induction Hstk as [|c stk [Hl Hk] _ IH]; intros acc Hacc; simpl; [exact Hacc|].
      apply IH. constructor; [|exact Hacc].
      exists c. simpl. rewrite (getIteratorOnInstruction_linked c Hl). auto. }
    apply Hgen. constructor.
Qed.

(** On a well-formed module, from a linked start instruction and a list
    of linked call sites, the query returns a value. *)
Lemma query_total start stk :
  well_formed M → (maxIterations C ≤ UINT_MAX)%Z →
  linked M start → stack_ok M stk →
  ∃ r this', query M C start stk = Some (Ok (r, this')).
Proof.
  intros WF Hmax Hs Hstk.
  pose proof (query_returns M C start stk Hmax) as Hsome.
  unfold query in *. unfold BFSearcher_new in *.
  destruct (addToSearchQueue_ok fresh (BFSearchState_new M start 0 stk))
    as (this0 & H0 & Hq0).
  { apply BFSearchState_new_ok; assumption. }
  { constructor. }
  rewrite H0 in *. simpl in *.
  destruct (searchForMinimalDistance M C (with_iterationCounter this0 0))
    as [res|] eqn:Hres; [|congruence].
  unfold searchForMinimalDistance in Hres.
  apply search_loop_ok in Hres as (r & this' & ->); [eauto|exact WF|exact Hq0].
Qed.

End WellFormed.

(** * Bounds and outcomes of a query *)

Section Bounds.

Context (M : LLVMModule) (C : Config).

(** The queue holds at most [maxQueueLength + 1] states, the limit taken
    as a [size_t]: a state is pushed when the size is still
    [<= maxQueueLength]. *)
Lemma searchqueue_size_bound this :
  reachable M C this →
  (Z.of_nat (length (searchqueue this)) ≤ size_t_of (maxQueueLength C) + 1)%Z.
Proof. intros H. apply (inv_size _ _ _ (reachable_Inv _ _ _ H)). Qed.

Lemma reachable_top_least this top rest :
  reachable M C this → searchqueue this = top :: rest →
  Forall (by_distance top) rest ∧ uint_range (distanceFromStart top).
Proof.
  intros Hr Hq. pose proof (reachable_Inv _ _ _ Hr) as [_ _ _ Ipm Iso Irg].
  rewrite Hq in *. split.
  - inversion Iso; assumption.
  - rewrite Ipm in Irg. simpl in Irg. apply Forall_cons in Irg as [H _]. exact H.
Qed.

(** C5.  For a state that is not at the first instruction of its block
    [wasAddedEarlier] answers false and [rememberAsAdded] changes nothing;
    for a state at the first instruction of its block they look up and
    record the pair of that instruction and the stack.  In every object
    that the operations produce from a new one, and so in the object a query
    ends with, the states ever pushed that are at the first instruction of
    their block have pairwise different (instruction, stack) keys. *)
Theorem duplicateFilter_block_entries :
  (∀ this state i f,
     instruction state = it_at i →
     bb_front M (getParent M i) = Ok f →
     f ≠ i →
     wasAddedEarlier M this state = Ok false
     ∧ rememberAsAdded M this state = Ok this)
  ∧ (∀ this state i,
       instruction state = it_at i →
       bb_front M (getParent M i) = Ok i →
       wasAddedEarlier M this state
       = Ok (bool_decide ((i, stack state) ∈ duplicateFilter this))
       ∧ ∃ this', rememberAsAdded M this state = Ok this'
                  ∧ duplicateFilter this'
                    = {[ (i, stack state) ]} ∪ duplicateFilter this
                  ∧ searchqueue this' = searchqueue this)
  ∧ (∀ this, reachable M C this → NoDup (entry_keys M (pushed this)))
  ∧ (∀ start stk r this,
       query M C start stk = Some (Ok (r, this)) →
       NoDup (entry_keys M (pushed this))).
Proof.
  split; [|split; [|split]].
  - intros this state i f Hi Hf Hne. unfold wasAddedEarlier, rememberAsAdded.
    rewrite Hi. simpl. rewrite Hf. simpl.
    destruct (decide (f = i)); [contradiction|]. auto.
  - intros this state i Hi Hf. unfold wasAddedEarlier, rememberAsAdded.
    rewrite Hi. simpl. rewrite Hf. simpl.
    destruct (decide (i = i)); [|congruence]. split; [reflexivity|].
    eexists. split; [reflexivity|]. simpl. auto.
  - intros this Hr. apply (inv_nodup _ _ _ (reachable_Inv _ _ _ Hr)).
  - intros start stk r this Hq. apply query_during in Hq.
    apply during_query_reachable in Hq.
    apply (inv_nodup _ _ _ (reachable_Inv _ _ _ Hq)).
Qed.

(** C7, as the code has it.  At every head of the loop of a query, and so
    when the query returns, the number of expansion steps made is at most
    [maxIterations], and the number of insertions into the queue is the
    number of expansion steps plus the number of states still queued. *)
Theorem expansions_and_insertions (start : Instruction) (stk : list Instruction) :
  (0 ≤ maxIterations C ≤ UINT_MAX)%Z →
  (∀ this, during_query M C start stk this →
     (Z.of_nat (length (popped this)) ≤ maxIterations C)%Z
     ∧ length (pushed this) = length (popped this) + length (searchqueue this))
  ∧ (∀ r this, query M C start stk = Some (Ok (r, this)) →
       (Z.of_nat (length (popped this)) ≤ maxIterations C)%Z
       ∧ length (pushed this) = length (popped this) + length (searchqueue this)).
Proof.
  intros [Hge Hmax].
  assert (Hdq : ∀ this, during_query M C start stk this →
     (Z.of_nat (length (popped this)) ≤ maxIterations C)%Z
     ∧ length (pushed this) = length (popped this) + length (searchqueue this)).
  { intros this Hdq.
    destruct (during_query_counter _ _ _ _ _ Hmax Hdq) as [Hc Hle].
    apply during_query_reachable, reachable_Inv in Hdq.
    pose proof (Permutation_length (inv_perm _ _ _ Hdq)) as Hlen.
    rewrite length_app in Hlen. split; [|lia].
    destruct Hle as [Hnil|Hle]; [rewrite Hnil; simpl; lia|lia]. }
  split; [exact Hdq|].
  intros r this Hq. apply Hdq. eapply query_during, Hq.
Qed.

Lemma UNREACHABLE_is_UINT_MAX : UNREACHABLE = UINT_MAX.
Proof. reflexivity. Qed.

Lemma searchForMinimalDistance_exit this :
  loop_condition C this = false →
  searchForMinimalDistance M C this = Some (Ok (UNREACHABLE, this)).
Proof.
  intros Hcond. unfold searchForMinimalDistance.
  destruct (Z.to_nat (maxIterations C - iterationCounter this)); simpl;
    rewrite Hcond; reflexivity.
Qed.

(** C8.  [maxDistance] is a [uint].  The value returned at the exit of
    the loop is [UNREACHABLE], the largest [uint].  A returning query either
    returns [UNREACHABLE], with the queue empty or the least queued distance
    not below [maxDistance] or [iterationCounter] not below [maxIterations],
    or it returns the distance of the target on top of the queue, which is
    not negative and is below [UNREACHABLE].  On a well-formed module the
    query does return. *)
Theorem query_outcomes (start : Instruction) (stk : list Instruction) :
  (0 ≤ maxDistance C ≤ UINT_MAX)%Z →
  UNREACHABLE = UINT_MAX
  ∧ (∀ this, loop_condition C this = false →
       searchForMinimalDistance M C this = Some (Ok (UNREACHABLE, this)))
  ∧ (∀ r this, query M C start stk = Some (Ok (r, this)) →
       (r = UNREACHABLE
        ∧ (searchqueue this = []
           ∨ (∃ top rest, searchqueue this = top :: rest
                          ∧ (maxDistance C ≤ distanceFromStart top)%Z
                          ∧ Forall (by_distance top) rest)
           ∨ (maxIterations C ≤ iterationCounter this)%Z))
       ∨ ((0 ≤ r < UNREACHABLE)%Z
          ∧ ∃ top rest, searchqueue this = top :: rest
                        ∧ isTheTarget C top = true
                        ∧ r = distanceFromStart top))
  ∧ ((maxIterations C ≤ UINT_MAX)%Z → well_formed M →
     linked M start → stack_ok M stk →
     ∃ r this, query M C start stk = Some (Ok (r, this))).
Proof.
  intros Hmd. split; [reflexivity|]. split; [apply searchForMinimalDistance_exit|].
  split; [|intros Hmax WF Hs Hstk; apply query_total; assumption].
  intros r this Hq. pose proof (query_during _ _ _ _ _ _ Hq) as Hdq.
  apply during_query_reachable in Hdq.
  unfold query in Hq.
  destruct (BFSearcher_new M C start stk) as [this0| |]; try discriminate.
  apply search_loop_result in Hq as [[-> Hcond]|(top & rest & Hsq & Ht & -> & Hlt)].
  - left. split; [reflexivity|].
    apply loop_condition_false in Hcond as [Hnil|[(top & rest & Hsq & Hd)|Hit]];
      [auto| |auto].
    right. left. exists top, rest. split; [exact Hsq|]. split; [exact Hd|].
    eapply reachable_top_least; eassumption.
  - right. destruct (reachable_top_least _ _ _ Hdq Hsq) as [_ [Hlo _]].
    rewrite UNREACHABLE_is_UINT_MAX. split; [lia|]. exists top, rest. auto.
Qed.

(** C10.  A value returned by [searchForMinimalDistance] is [UNREACHABLE]
    or is below [maxDistance]; so it is for a query.  When the state on top
    of the queue has a distance not below [maxDistance], the loop is left at
    once and [UNREACHABLE] is returned, whatever [isTheTarget] says of that
    state. *)
Theorem returned_distance_below_maxDistance :
  (∀ this r this',
     searchForMinimalDistance M C this = Some (Ok (r, this')) →
     r = UNREACHABLE ∨ (r < maxDistance C)%Z)
  ∧ (∀ start stk r this',
       query M C start stk = Some (Ok (r, this')) →
       r = UNREACHABLE ∨ (r < maxDistance C)%Z)
  ∧ (∀ this top rest,
       searchqueue this = top :: rest →
       (maxDistance C ≤ distanceFromStart top)%Z →
       searchForMinimalDistance M C this = Some (Ok (UNREACHABLE, this))).
Proof.
  assert (Hloop : ∀ this r this',
     searchForMinimalDistance M C this = Some (Ok (r, this')) →
     r = UNREACHABLE ∨ (r < maxDistance C)%Z).
  { intros this r this' H. unfold searchForMinimalDistance in H.
    apply search_loop_result in H as [[-> _]|(top & rest & _ & _ & -> & Hlt)];
      [left; reflexivity|right; exact Hlt]. }
  split; [exact Hloop|]. split.
  - intros start stk r this' H. unfold query in H.
    destruct (BFSearcher_new M C start stk) as [this0| |]; try discriminate.
    eapply Hloop, H.
  - intros this top rest Hsq Hd. apply searchForMinimalDistance_exit.
    unfold loop_condition. rewrite Hsq.
    apply andb_false_iff. left. apply Z.ltb_ge. exact Hd.
Qed.

End Bounds.

(** * The searcher on the small module *)

Section OnDemo.

Import Demo.

Ltac case_nat n k :=
  match k with
  | O => idtac
  | S ?k' => destruct n as [|n]; [|case_nat n k']
  end.

Tactic Notation "case_elems" hyp(H) tactic(tac) :=
  repeat (apply elem_of_cons in H as [->|H]; [tac|]);
  apply elem_of_nil in H; contradiction.

Lemma module_well_formed : well_formed module.
Proof.
  constructor.
  - intros bb i. case_nat bb 6; simpl; intros H; case_elems H reflexivity.
  - intros i. unfold linked. case_nat i 10; intros Hl Ht;
      first [ discriminate Ht
            | apply elem_of_nil in Hl; contradiction
            | eexists; vm_compute; reflexivity ].
  - intros i bb _. case_nat i 10; simpl; intros H; case_elems H discriminate.
  - intros c f bb r _. case_nat c 10; simpl; intros [= <-]; simpl;
      intros [= <- <-]; discriminate.
Qed.

(** C1 on the module, with [maxQueueLength = 1] and the search started at
    the branch (instruction 2): after the first expansion step the queue
    holds two states. *)
Theorem searchqueue_exceeds_maxQueueLength :
  maxQueueLength (config 1) = 1%Z
  ∧ ∃ this0 this1,
      BFSearcher_new module (config 1) 2 [] = Ok this0
      ∧ loop_condition (config 1) this0 = true
      ∧ doSingleSearchIteration module (config 1) this0 = Ok this1
      ∧ during_query module (config 1) 2 [] (count_iteration this1)
      ∧ length (searchqueue this1) = 2
      ∧ (maxQueueLength (config 1) < Z.of_nat (length (searchqueue this1)))%Z.
Proof.
  split; [reflexivity|].
  eexists _, _. split; [vm_compute; reflexivity|].
  split; [vm_compute; reflexivity|].
  split; [vm_compute; reflexivity|].
  split.
  - eapply dq_iteration.
    + apply dq_start. vm_compute. reflexivity.
    + vm_compute. reflexivity.
    + vm_compute. reflexivity.
    + vm_compute. reflexivity.
    + vm_compute. reflexivity.
  - split; [vm_compute; reflexivity|]. vm_compute. reflexivity.
Qed.

(** Against C7 as stated: with [maxQueueLength = 2] the query from
    instruction 0 returns the distance 6 after 8 insertions into the
    queue. *)
Lemma insertions_exceed_maxQueueLength :
  ∃ this,
    query module (config 2) 0 [] = Some (Ok (6%Z, this))
    ∧ maxQueueLength (config 2) = 2%Z
    ∧ length (pushed this) = 8
    ∧ ¬ (Z.of_nat (length (pushed this)) ≤ maxQueueLength (config 2))%Z.
Proof.
  eexists. split; [vm_compute; reflexivity|].
  split; [reflexivity|]. split; [vm_compute; reflexivity|].
  vm_compute. intros H. apply H. reflexivity.
Qed.

(** The probe of instruction 8 (a call of function 3) against a stack
    that holds the same call site, and against the empty stack. *)
Lemma doesIntroduceRecursion_spec_witness :
  doesIntroduceRecursion module
    {| instruction := it_at 8; distanceFromStart := 0; stack := [] |}
    {| call := it_at 8 |} = Ok false
  ∧ ∃ b,
      doesIntroduceRecursion module
        {| instruction := it_at 8; distanceFromStart := 0;
           stack := [{| call := it_at 0 |}; {| call := it_at 8 |}] |}
        {| call := it_at 8 |} = Ok b
      ∧ (b = true ↔
         ∃ e, e ∈ [{| call := it_at 0 |}; {| call := it_at 8 |}]
              ∧ callee module e = callee module {| call := it_at 8 |}).
Proof.
  split.
  - apply (proj1 (doesIntroduceRecursion_spec module _ _)). reflexivity.
  - apply (proj2 (doesIntroduceRecursion_spec module
             {| instruction := it_at 8; distanceFromStart := 0;
                stack := [{| call := it_at 0 |}; {| call := it_at 8 |}] |}
             {| call := it_at 8 |})).
    + exists 8. split; reflexivity.
    + repeat constructor; [exists 0|exists 8]; split; reflexivity.
Defined.

(** The state at instruction 1 is not at the start of its block; the
    states pushed during the query from instruction 0 have different
    keys. *)
Lemma duplicateFilter_block_entries_witness :
  (wasAddedEarlier module (started 2 0 []) (state_at 1 1 []) = Ok false
   ∧ rememberAsAdded module (started 2 0 []) (state_at 1 1 [])
     = Ok (started 2 0 []))
  ∧ wasAddedEarlier module (started 2 0 []) (state_at 0 7 []) = Ok true
  ∧ NoDup (entry_keys module (pushed (started 2 0 [])))
  ∧ ∃ this,
      query module (config 2) 0 [] = Some (Ok (6%Z, this))
      ∧ NoDup (entry_keys module (pushed this)).
Proof.
  destruct (duplicateFilter_block_entries module (config 2))
    as (H1 & H2 & H3 & H4).
  split; [|split; [|split]].
  - apply (H1 (started 2 0 []) (state_at 1 1 []) 1 0); [reflexivity|reflexivity|].
    discriminate.
  - apply (H2 (started 2 0 []) (state_at 0 7 []) 0); reflexivity.
  - apply H3. apply (reachable_BFSearcher_new module (config 2) 0 []).
    reflexivity.
  - eexists. split; [vm_compute; reflexivity|].
    eapply (H4 0 []). vm_compute. reflexivity.
Defined.

Lemma expansions_and_insertions_witness :
  ∃ this,
    query module (config 2) 0 [] = Some (Ok (6%Z, this))
    ∧ (Z.of_nat (length (popped this)) ≤ maxIterations (config 2))%Z
    ∧ length (pushed this) = length (popped this) + length (searchqueue this).
Proof.
  assert (Hmax : (0 ≤ maxIterations (config 2) ≤ UINT_MAX)%Z).
  { vm_compute. split; discriminate. }
  destruct (expansions_and_insertions module (config 2) 0 [] Hmax) as [_ H].
  eexists. split; [vm_compute; reflexivity|].
  eapply H. vm_compute. reflexivity.
Defined.

Lemma query_outcomes_witness :
  searchForMinimalDistance module (config 2) (after_pop (started 2 3 []))
  = Some (Ok (UNREACHABLE, after_pop (started 2 3 [])))
  ∧ ∃ r this,
      query module (config 2) 0 [] = Some (Ok (r, this))
      ∧ ((r = UNREACHABLE
          ∧ (searchqueue this = []
             ∨ (∃ top rest, searchqueue this = top :: rest
                            ∧ (maxDistance (config 2) ≤ distanceFromStart top)%Z
                            ∧ Forall (by_distance top) rest)
             ∨ (maxIterations (config 2) ≤ iterationCounter this)%Z))
         ∨ ((0 ≤ r < UNREACHABLE)%Z
            ∧ ∃ top rest, searchqueue this = top :: rest
                          ∧ isTheTarget (config 2) top = true
                          ∧ r = distanceFromStart top)).
Proof.
  assert (Hmd : (0 ≤ maxDistance (config 2) ≤ UINT_MAX)%Z).
  { vm_compute. split; discriminate. }
  destruct (query_outcomes module (config 2) 0 [] Hmd) as (_ & H2 & H3 & H4).
  split; [apply H2; reflexivity|].
  destruct H4 as (r & this & Hq).
  - vm_compute. discriminate.
  - apply module_well_formed.
  - unfold linked. simpl. left.
  - constructor.
  - exists r, this. split; [exact Hq|]. apply H3, Hq.
Defined.

(** The query from instruction 0 returns 6, below [maxDistance = 100];
    the target queued at distance 100 is not returned. *)
Lemma returned_distance_below_maxDistance_witness :
  (∃ this,
     query module (config 2) 0 [] = Some (Ok (6%Z, this))
     ∧ (6%Z = UNREACHABLE ∨ (6 < maxDistance (config 2))%Z))
  ∧ isTheTarget (config 2) (state_at 5 100 []) = true
  ∧ searchForMinimalDistance module (config 2) holding_far_target
    = Some (Ok (UNREACHABLE, holding_far_target)).
Proof.
  destruct (returned_distance_below_maxDistance module (config 2))
    as (_ & H2 & H3).
  split; [|split].
  - eexists. split; [vm_compute; reflexivity|].
    eapply (H2 0 []). vm_compute. reflexivity.
  - reflexivity.
  - apply (H3 holding_far_target (state_at 5 100 []) []); [reflexivity|].
    vm_compute. discriminate.
Defined.

End OnDemo.

(** * The size of the queue on a branch with many successors *)

Section OnWide.

Lemma wide_enqueue_successors (n : nat) (N : Z) (curr : BFSearchState) :
  instruction curr = it_at 0 →
  ∀ m a this,
    (∀ k stk, (k, stk) ∈ duplicateFilter this → k < a) →
    (Z.of_nat (length (searchqueue this)) + Z.of_nat m ≤ size_t_of N + 1)%Z →
    ∃ this',
      enqueue_successors (Wide.module n) (Wide.config N) this curr (seq a m)
      = Ok this'
      ∧ length (searchqueue this') = length (searchqueue this) + m.
Proof.
  intros Hcurr. induction m as [|m IH]; intros a this Hkeys Hsize; simpl.
  - exists this. split; [reflexivity|lia].
  - unfold enqueueInSearchQueue. rewrite Hcurr. simpl.
    unfold addToSearchQueue, wasAddedEarlier, rememberAsAdded. simpl.
    destruct (decide (a = a)) as [_|Hne]; [|congruence]. simpl.
    unfold duplicateFilter_count.
    rewrite bool_decide_eq_false_2
      by (intros Hin; apply Hkeys in Hin; lia).
    simpl negb. rewrite andb_true_l.
    destruct (Z.leb_spec (Z.of_nat (length (searchqueue this))) (size_t_of N))
      as [_|Hgt]; [|lia].
    simpl.
    match goal with
    | |- context [enqueue_successors _ _ ?t _ _] =>
        destruct (IH (S a) t) as (this' & Hrun & Hlen)
    end.
    + simpl. intros k stk Hin.
      apply elem_of_union in Hin as [Hin|Hin].
      * apply elem_of_singleton in Hin. injection Hin as -> _. lia.
      * apply Hkeys in Hin. lia.
    + simpl. rewrite pq_push_length. lia.
    + exists this'. split; [exact Hrun|].
      rewrite Hlen. simpl. rewrite pq_push_length. lia.
Qed.

(** Whatever [maxQueueLength] is, among the values of a [size_t], the
    queue holds [maxQueueLength + 1] states after the expansion of a
    terminator with that many successors. *)
Lemma searchqueue_exceeds_any_maxQueueLength (N : nat) :
  (Z.of_nat N ≤ SIZE_MAX)%Z →
  ∃ this0 this1,
    BFSearcher_new (Wide.module (S N)) (Wide.config (Z.of_nat N)) 0 [] = Ok this0
    ∧ doSingleSearchIteration (Wide.module (S N)) (Wide.config (Z.of_nat N)) this0
      = Ok this1
    ∧ length (searchqueue this1) = S N.
Proof.
  intros HN.
  pose proof (size_t_of_small (Z.of_nat N) ltac:(lia)) as Hsz.
  set (s0 := BFSearchState_new (Wide.module (S N)) 0 0 []).
  set (this0 := {| searchqueue := [s0];
                   duplicateFilter := {[ (0, []) ]} ∪ ∅;
                   iterationCounter := 0;
                   pushed := [s0];
                   popped := [] |}).
  destruct (wide_enqueue_successors (S N) (Z.of_nat N) s0 eq_refl (S N) 1
              {| searchqueue := [];
                 duplicateFilter := {[ (0, []) ]} ∪ ∅;
                 iterationCounter := 0;
                 pushed := [s0];
                 popped := [s0] |})
    as (this1 & Hrun & Hlen).
  { simpl. intros k stk Hin. apply elem_of_union in Hin as [Hin|Hin].
    - apply elem_of_singleton in Hin. injection Hin as -> _. lia.
    - apply not_elem_of_empty in Hin. contradiction. }
  { simpl. rewrite Hsz. lia. }
  exists this0, this1. split; [|split].
  - unfold BFSearcher_new, addToSearchQueue, wasAddedEarlier, rememberAsAdded.
    simpl. unfold duplicateFilter_count.
    rewrite bool_decide_eq_false_2 by apply not_elem_of_empty.
    simpl negb. rewrite andb_true_l.
    match goal with
    | |- context [(?a <=? ?b)%Z] =>
        destruct (Z.leb_spec a b) as [_|Hgt];
          [|simpl in Hgt; rewrite Hsz in Hgt; lia]
    end.
    reflexivity.
  - exact Hrun.
  - rewrite Hlen. simpl. lia.
Qed.

End OnWide.

(** * Construction, admission and the driver *)

Section Construction.

Context (M : LLVMModule) (C : Config).

Lemma scan_block_unlinked bb i l : i ∉ l → scan_block bb i l = it_end bb.
Proof.
  induction l as [|x l IH]; intros Hnot; simpl; [reflexivity|].
  apply not_elem_of_cons in Hnot as [Hne Hnot].
  destruct (decide (x = i)); [congruence|]. apply IH, Hnot.
Qed.

(** X1.  [getIteratorOnInstruction] returns the position of the
    instruction when the instruction is in the list of its parent block,
    and the past-the-end position of that block otherwise; it never returns
    a null iterator. *)
Theorem getIteratorOnInstruction_result (inst : Instruction) :
  (linked M inst → getIteratorOnInstruction M inst = it_at inst)
  ∧ (¬ linked M inst →
     getIteratorOnInstruction M inst = it_end (getParent M inst))
  ∧ getIteratorOnInstruction M inst ≠ it_null.
Proof.
  assert (H1 : linked M inst → getIteratorOnInstruction M inst = it_at inst)
    by apply getIteratorOnInstruction_linked.
  assert (H2 : ¬ linked M inst →
               getIteratorOnInstruction M inst = it_end (getParent M inst)).
  { intros Hnot. apply scan_block_unlinked, Hnot. }
  split; [exact H1|]. split; [exact H2|].
  destruct (decide (inst ∈ instructions M (getParent M inst))) as [Hin|Hnot].
  - rewrite (H1 Hin). discriminate.
  - rewrite (H2 Hnot). discriminate.
Qed.

Lemma fold_left_push {A B} (f : A → B) (l : list A) (acc : list B) :
  fold_left (fun st x => f x :: st) l acc = rev (map f l) ++ acc.
Proof.
  revert acc. induction l as [|x l IH]; intros acc; simpl; [reflexivity|].
  rewrite IH, <- app_assoc. reflexivity.
Qed.

(** X2.  The constructor of [BFSearchState] that takes a list of call
    sites builds the stack in list order: the stack is the reversed list,
    so the last call site of the list is on top and the first at the
    bottom, and nothing is lost or added.  For call sites that are in their
    blocks every entry is the position of its call site. *)
Theorem BFSearchState_new_stack (inst : Instruction) (d : Z) (stk : list Instruction) :
  stack (BFSearchState_new M inst d stk)
  = rev (map (fun c => {| call := getIteratorOnInstruction M c |}) stk)
  ∧ length (stack (BFSearchState_new M inst d stk)) = length stk
  ∧ (∀ stk' c, stk = stk' ++ [c] →
       head (stack (BFSearchState_new M inst d stk))
       = Some {| call := getIteratorOnInstruction M c |})
  ∧ (Forall (linked M) stk →
     stack (BFSearchState_new M inst d stk)
     = rev (map (fun c => {| call := it_at c |}) stk)).
Proof.
  assert (Hs : stack (BFSearchState_new M inst d stk)
               = rev (map (fun c => {| call := getIteratorOnInstruction M c |}) stk)).
  { simpl. rewrite fold_left_push. apply app_nil_r. }
  split; [exact Hs|]. split; [|split].
  - rewrite Hs, length_rev, length_map. reflexivity.
  - intros stk' c ->. rewrite Hs, map_app, rev_app_distr. reflexivity.
  - intros Hl. rewrite Hs.
    assert (Hm : map (fun c => {| call := getIteratorOnInstruction M c |}) stk
                 = map (fun c => {| call := it_at c |}) stk).
    { clear Hs. induction Hl as [|c l Hc _ IH]; simpl; [reflexivity|].
      rewrite (getIteratorOnInstruction_linked M c Hc), IH. reflexivity. }
    rewrite Hm. reflexivity.
Qed.

(** [addToSearchQueue] on a state whose instruction is in a block. *)
Lemma addToSearchQueue_eq this s i :
  instruction s = it_at i →
  instructions M (getParent M i) ≠ [] →
  addToSearchQueue M C this s
  = Ok (if admits M C this s
        then {| searchqueue := pq_push s (searchqueue this);
                duplicateFilter :=
                  match block_entry_key M s with
                  | Some k => {[ k ]} ∪ duplicateFilter this
                  | None => duplicateFilter this
                  end;
                iterationCounter := iterationCounter this;
                pushed := s :: pushed this;
                popped := popped this |}
        else this).
Proof.
  intros Hi Hne.
  unfold addToSearchQueue, admits, wasAddedEarlier, rememberAsAdded,
    block_entry_key, bb_front, duplicateFilter_count.
  rewrite Hi. simpl.
  destruct (instructions M (getParent M i)) as [|f l]; [congruence|]. simpl.
  destruct (decide (f = i)); simpl;
    match goal with
    | |- context [if ?b then _ else _] => destruct b
    end; reflexivity.
Qed.

(** X7.  [addToSearchQueue], on a state whose instruction is in a block,
    always returns.  It inserts the state exactly when the state is not a
    recorded block entry and the queue holds at most [maxQueueLength]
    states; then the queue gains that one state and the filter gains its
    key if it is a block entry.  Otherwise the searcher is unchanged. *)
Theorem addToSearchQueue_admission
    (this : BFSearcher) (s : BFSearchState) (i : Instruction) :
  instruction s = it_at i →
  instructions M (getParent M i) ≠ [] →
  ∃ this',
    addToSearchQueue M C this s = Ok this'
    ∧ (admits M C this s = true →
       searchqueue this' ≡ₚ s :: searchqueue this
       ∧ pushed this' = s :: pushed this
       ∧ popped this' = popped this
       ∧ iterationCounter this' = iterationCounter this
       ∧ ∀ k, k ∈ duplicateFilter this'
              ↔ block_entry_key M s = Some k ∨ k ∈ duplicateFilter this)
    ∧ (admits M C this s = false → this' = this).
Proof.
  intros Hi Hne. rewrite (addToSearchQueue_eq this s i Hi Hne).
  eexists. split; [reflexivity|].
  destruct (admits M C this s); split; try discriminate; try reflexivity.
  intros _. simpl. split; [apply pq_push_perm|].
  repeat (split; [reflexivity|]).
  intros k. destruct (block_entry_key M s) as [k0|].
  - rewrite elem_of_union, elem_of_singleton. split.
    + intros [->|H]; auto.
    + intros [[= ->]|H]; auto.
  - split; [auto|]. intros [H|H]; [discriminate|exact H].
Qed.

Lemma linked_nonempty i : linked M i → instructions M (getParent M i) ≠ [].
Proof.
  unfold linked. intros Hin Hnil. rewrite Hnil in Hin.
  apply elem_of_nil in Hin. exact Hin.
Qed.

Lemma BFSearcher_new_eq start stk :
  linked M start →
  BFSearcher_new M C start stk
  = Ok (with_iterationCounter
          {| searchqueue := [BFSearchState_new M start 0 stk];
             duplicateFilter :=
               match block_entry_key M (BFSearchState_new M start 0 stk) with
               | Some k => {[ k ]} ∪ ∅
               | None => ∅
               end;
             iterationCounter := 0;
             pushed := [BFSearchState_new M start 0 stk];
             popped := [] |} 0).
Proof.
  intros Hl. unfold BFSearcher_new.
  rewrite (addToSearchQueue_eq fresh _ start);
    [|simpl; apply getIteratorOnInstruction_linked, Hl|apply linked_nonempty, Hl].
  assert (Hadm : admits M C fresh (BFSearchState_new M start 0 stk) = true).
  { unfold admits. apply andb_true_iff. split.
    - destruct (block_entry_key M (BFSearchState_new M start 0 stk)) as [k|];
        [rewrite bool_decide_eq_false_2 by apply not_elem_of_empty|]; reflexivity.
    - apply Z.leb_le. simpl length.
      pose proof (size_t_of_range (maxQueueLength C)). lia. }
  rewrite Hadm. reflexivity.
Qed.

(** X3.  The constructors, given a start instruction that is in its
    block, return a searcher with [iterationCounter = 0] and nothing
    expanded, whose queue holds the start state alone, at distance 0,
    whatever the limits are (the queue is empty when the size is compared
    with [maxQueueLength]); the filter holds the key of the start state
    exactly when the start is the first instruction of its block. *)
Theorem BFSearcher_new_result (start : Instruction) (stk : list Instruction) :
  linked M start →
  ∃ this,
    BFSearcher_new M C start stk = Ok this
    ∧ iterationCounter this = 0%Z
    ∧ popped this = []
    ∧ searchqueue this = [BFSearchState_new M start 0 stk]
    ∧ pushed this = [BFSearchState_new M start 0 stk]
    ∧ distanceFromStart (BFSearchState_new M start 0 stk) = 0%Z
    ∧ instruction (BFSearchState_new M start 0 stk) = it_at start
    ∧ ∀ k, k ∈ duplicateFilter this
           ↔ block_entry_key M (BFSearchState_new M start 0 stk) = Some k.
Proof.
  intros Hl. rewrite (BFSearcher_new_eq start stk Hl).
  eexists. split; [reflexivity|]. simpl.
  repeat (split; [reflexivity|]).
  split; [apply getIteratorOnInstruction_linked, Hl|].
  intros k. fold (BFSearchState_new M start 0 stk).
  destruct (block_entry_key M (BFSearchState_new M start 0 stk)) as [k0|].
  - rewrite elem_of_union, elem_of_singleton. split.
    + intros [->|H]; [reflexivity|]. apply not_elem_of_empty in H. contradiction.
    + intros [= ->]. left. reflexivity.
  - split; [|discriminate]. intros H. apply not_elem_of_empty in H. contradiction.
Qed.

(** X4.  When the start state satisfies [isTheTarget] and the three
    limits are positive, the query returns 0 without expanding any state. *)
Theorem query_start_is_target (start : Instruction) (stk : list Instruction) :
  linked M start →
  (0 ≤ maxQueueLength C)%Z →
  (0 < maxDistance C)%Z →
  (0 < maxIterations C)%Z →
  isTheTarget C (BFSearchState_new M start 0 stk) = true →
  ∃ this,
    query M C start stk = Some (Ok (0%Z, this))
    ∧ popped this = []
    ∧ searchqueue this = [BFSearchState_new M start 0 stk].
Proof.
  intros Hl Hq Hd Hi Ht. unfold query.
  rewrite (BFSearcher_new_eq start stk Hl).
  assert (Hcond : ∀ fuel this,
            searchqueue this = [BFSearchState_new M start 0 stk] →
            iterationCounter this = 0%Z →
            search_loop M C fuel this = Some (Ok (0%Z, this))).
  { intros fuel this Hsq Hc.
    assert (Hlc : loop_condition C this = true).
    { unfold loop_condition. rewrite Hsq, Hc. simpl.
      apply andb_true_iff. split; apply Z.ltb_lt; assumption. }
    destruct fuel; simpl; rewrite Hlc, Hsq, Ht; reflexivity. }
  eexists. split.
  - unfold searchForMinimalDistance. apply Hcond; reflexivity.
  - split; reflexivity.
Qed.

(** X5.  When [maxIterations] or [maxDistance] is 0, the query returns
    [UNREACHABLE] without expanding any state, even if the start state is
    the target. *)
Theorem query_zero_limit (start : Instruction) (stk : list Instruction) :
  linked M start →
  maxIterations C = 0%Z ∨ maxDistance C = 0%Z →
  ∃ this,
    query M C start stk = Some (Ok (UNREACHABLE, this))
    ∧ popped this = []
    ∧ searchqueue this = [BFSearchState_new M start 0 stk].
Proof.
  intros Hl Hlim. unfold query. rewrite (BFSearcher_new_eq start stk Hl).
  eexists. split.
  - apply searchForMinimalDistance_exit. unfold loop_condition. simpl.
    apply andb_false_iff.
    destruct Hlim as [H|H]; [right|left]; rewrite H; reflexivity.
  - split; reflexivity.
Qed.

Lemma search_loop_more_fuel fuel : ∀ fuel' this res,
  fuel ≤ fuel' →
  search_loop M C fuel this = Some res →
  search_loop M C fuel' this = Some res.
Proof.
  induction fuel as [|fuel IH]; intros fuel' this res Hle;
    destruct fuel' as [|fuel']; simpl; try lia;
    destruct (loop_condition C this); try (intros H; exact H);
    destruct (searchqueue this) as [|top rest]; try (intros H; exact H);
    destruct (isTheTarget C top); try (intros H; exact H); try discriminate.
  destruct (doSingleSearchIteration M C this) as [this1| |];
    try (intros H; exact H).
  apply IH. lia.
Qed.

(** X6.  The loop of [searchForMinimalDistance] ends, on any module and
    from any searcher whose counter is not negative, within
    [maxIterations - iterationCounter] rounds ([maxIterations] being a
    [uint] value): the function has a result, and unrolling the loop
    further gives the same result. *)
Theorem searchForMinimalDistance_terminates (this : BFSearcher) :
  (0 ≤ iterationCounter this)%Z →
  (maxIterations C ≤ UINT_MAX)%Z →
  ∃ res,
    searchForMinimalDistance M C this = Some res
    ∧ ∀ fuel,
        (maxIterations C - iterationCounter this ≤ Z.of_nat fuel)%Z →
        search_loop M C fuel this = Some res.
Proof.
  intros Hge Hmax.
  destruct (searchForMinimalDistance M C this) as [res|] eqn:Hres.
  - exists res. split; [reflexivity|]. intros fuel Hfuel.
    unfold searchForMinimalDistance in Hres.
    eapply search_loop_more_fuel; [|exact Hres]. lia.
  - exfalso. eapply searchForMinimalDistance_returns; eassumption.
Qed.

End Construction.

(** * The duplicate filter and the logs of the searcher *)

Section Filter.

Context (M : LLVMModule) (C : Config).

Lemma wasAddedEarlier_eq this s :
  wasAddedEarlier M this s
  = match instruction s with
    | it_at i =>
        match instructions M (getParent M i) with
        | [] => Undefined
        | _ :: _ =>
            Ok match block_entry_key M s with
               | Some k => bool_decide (k ∈ duplicateFilter this)
               | None => false
               end
        end
    | _ => Undefined
    end.
Proof.
  unfold wasAddedEarlier, block_entry_key, bb_front, duplicateFilter_count.
  destruct (instruction s) as [|i|bb]; simpl; try reflexivity.
  destruct (instructions M (getParent M i)) as [|f l]; simpl; [reflexivity|].
  destruct (decide (f = i)); reflexivity.
Qed.

Lemma block_entry_key_same s s2 :
  instruction s2 = instruction s → stack s2 = stack s →
  block_entry_key M s2 = block_entry_key M s.
Proof. intros Hi Hs. unfold block_entry_key. rewrite Hi, Hs. reflexivity. Qed.

(** X8.  After a returning [rememberAsAdded] of a state, [wasAddedEarlier]
    answers true for every state at the same instruction with the same
    stack, whatever its distance, when that instruction is the first of its
    block, and false when it is not; for a state with another key the answer
    is the one given before. *)
Theorem rememberAsAdded_then_wasAddedEarlier
    (this this' : BFSearcher) (s : BFSearchState) :
  rememberAsAdded M this s = Ok this' →
  (∀ s2, instruction s2 = instruction s → stack s2 = stack s →
     wasAddedEarlier M this' s2
     = Ok match block_entry_key M s with Some _ => true | None => false end)
  ∧ (∀ s3, block_entry_key M s3 ≠ block_entry_key M s →
       wasAddedEarlier M this' s3 = wasAddedEarlier M this s3).
Proof.
  intros Hrem.
  assert (Hblock : ∃ i, instruction s = it_at i
                        ∧ instructions M (getParent M i) ≠ []).
  { unfold rememberAsAdded, deref, bb_front in Hrem.
    destruct (instruction s) as [|i|bb]; simpl in Hrem; try discriminate.
    exists i. split; [reflexivity|]. intros Hnil. rewrite Hnil in Hrem.
    discriminate. }
  destruct Hblock as (i & Hi & Hne).
  apply rememberAsAdded_key in Hrem as (_ & _ & _ & _ & Hf).
  split.
  - intros s2 Hi2 Hs2. rewrite wasAddedEarlier_eq, Hi2, Hi.
    destruct (instructions M (getParent M i)) as [|f l]; [congruence|].
    rewrite (block_entry_key_same s s2 Hi2 Hs2), Hf.
    destruct (block_entry_key M s) as [k|]; [|reflexivity].
    rewrite bool_decide_eq_true_2
      by (apply elem_of_union; left; apply elem_of_singleton; reflexivity). reflexivity.
  - intros s3 Hkey. rewrite !wasAddedEarlier_eq.
    destruct (instruction s3) as [|i3|bb3]; try reflexivity.
    destruct (instructions M (getParent M i3)) as [|f l]; [reflexivity|].
    destruct (block_entry_key M s3) as [k3|]; [|reflexivity].
    rewrite Hf. destruct (block_entry_key M s) as [k|]; [|reflexivity].
    f_equal. apply bool_decide_ext. rewrite elem_of_union, elem_of_singleton.
    split; [|auto]. intros [->|H]; [congruence|exact H].
Qed.

Lemma block_entry_key_at s k :
  block_entry_key M s = Some k →
  ∃ i, instruction s = it_at i ∧ instructions M (getParent M i) ≠ [].
Proof.
  unfold block_entry_key.
  destruct (instruction s) as [|i|bb]; try discriminate.
  intros Hkey. exists i. split; [reflexivity|]. intros Hnil.
  rewrite Hnil in Hkey. discriminate.
Qed.

(** A state whose key is recorded is not added. *)
Lemma addToSearchQueue_recorded this s k :
  block_entry_key M s = Some k →
  k ∈ duplicateFilter this →
  addToSearchQueue M C this s = Ok this.
Proof.
  intros Hkey Hin. destruct (block_entry_key_at s k Hkey) as (i & Hi & Hne).
  rewrite (addToSearchQueue_eq M C this s i Hi Hne).
  unfold admits. rewrite Hkey, bool_decide_eq_true_2 by exact Hin.
  reflexivity.
Qed.

Lemma later_filter this1 this2 :
  later M C this1 this2 → duplicateFilter this1 ⊆ duplicateFilter this2.
Proof.
  induction 1 as [this|this1 this2 s this3 _ IH Hadd
                 |this1 this2 top this3 _ IH Hpop|this1 this2 n _ IH].
  - reflexivity.
  - etransitivity; [exact IH|].
    destruct (addToSearchQueue_cases _ _ _ _ _ Hadd)
      as [->|(_ & _ & _ & _ & _ & Hf)]; [reflexivity|].
    destruct (block_entry_key M s) as [k|].
    + destruct Hf as [_ ->]. apply union_subseteq_r.
    + rewrite Hf. reflexivity.
  - apply popFromSeachQueue_cases in Hpop as (_ & Hf & _). rewrite Hf. exact IH.
  - exact IH.
Qed.

Lemma later_adds this1 this2 this3 :
  adds M C this2 this3 → later M C this1 this2 → later M C this1 this3.
Proof.
  induction 1 as [|this s thisa thisb _ Hadd _ IH]; intros Hl; [exact Hl|].
  apply IH. eapply later_add; eassumption.
Qed.

(** X9.  Once [addToSearchQueue] has pushed a state at the first
    instruction of its block, a call of it for any state at the same
    instruction with the same stack changes nothing, whatever the distance
    of that state and however many insertions, removals and expansion steps
    have been made in between: a later, shorter way to the same block entry
    is not queued.  Made at once after a returning call, pushed or not, the
    repeated call changes nothing either. *)
Theorem addToSearchQueue_repeat
    (this this1 : BFSearcher) (s : BFSearchState) (k : nat * list BFStackEntry) :
  addToSearchQueue M C this s = Ok this1 →
  block_entry_key M s = Some k →
  (∀ s2, instruction s2 = instruction s → stack s2 = stack s →
         addToSearchQueue M C this1 s2 = Ok this1)
  ∧ (pushed this1 = s :: pushed this →
     ∀ this2, later M C this1 this2 →
     ∀ s2, instruction s2 = instruction s → stack s2 = stack s →
           addToSearchQueue M C this2 s2 = Ok this2)
  ∧ (∀ this2 this3,
       later M C this1 this2 →
       doSingleSearchIteration M C this2 = Ok this3 →
       later M C this1 (count_iteration this3)).
Proof.
  intros Hadd Hkey.
  destruct (block_entry_key_at s k Hkey) as (i & Hi & Hne).
  split; [|split].
  - intros s2 Hi2 Hs2.
    assert (Hkey2 : block_entry_key M s2 = Some k).
    { rewrite (block_entry_key_same s s2 Hi2 Hs2). exact Hkey. }
    rewrite (addToSearchQueue_eq M C this1 s2 i) by congruence.
    rewrite (addToSearchQueue_eq M C this s i Hi Hne) in Hadd.
    assert (Hno : admits M C this1 s2 = false); [|rewrite Hno; reflexivity].
    unfold admits in *. rewrite Hkey2. rewrite Hkey in Hadd.
    destruct (bool_decide (k ∈ duplicateFilter this)) eqn:Hseen; simpl in Hadd.
    + injection Hadd as <-. rewrite Hseen. reflexivity.
    + destruct (Z.of_nat (length (searchqueue this))
                <=? size_t_of (maxQueueLength C))%Z eqn:Hsz;
        injection Hadd as <-; simpl.
      * rewrite bool_decide_eq_true_2
          by (apply elem_of_union; left; apply elem_of_singleton; reflexivity).
        reflexivity.
      * rewrite Hseen, Hsz. reflexivity.
  - intros Hpushed this2 Hlater s2 Hi2 Hs2.
    assert (Hkey2 : block_entry_key M s2 = Some k).
    { rewrite (block_entry_key_same s s2 Hi2 Hs2). exact Hkey. }
    apply (addToSearchQueue_recorded this2 s2 k Hkey2).
    apply (later_filter _ _ Hlater).
    destruct (addToSearchQueue_cases _ _ _ _ _ Hadd)
      as [->|(_ & _ & _ & _ & _ & Hf)].
    + exfalso. apply (f_equal (@length _)) in Hpushed. simpl in Hpushed. lia.
    + rewrite Hkey in Hf. destruct Hf as [_ ->].
      apply elem_of_union. left. apply elem_of_singleton. reflexivity.
  - intros this2 this3 Hlater Hstep.
    apply later_counter.
    apply doSingleSearchIteration_shape in Hstep
      as (curr & thisp & j & Hpop & _ & Hadds).
    eapply later_adds; [exact Hadds|]. eapply later_pop; eassumption.
Qed.

(** X10.  In every searcher that the operations produce from a new one,
    the duplicate filter holds exactly the keys of the states pushed so far
    that are at the first instruction of their block. *)
Theorem duplicateFilter_exact (this : BFSearcher) :
  reachable M C this →
  ∀ k, k ∈ duplicateFilter this ↔ k ∈ entry_keys M (pushed this).
Proof.
  induction 1 as [|this s this' _ IH _ Hadd|this top this' _ IH Hpop|this n _ IH];
    intros k.
  - simpl. split; intros H; [apply not_elem_of_empty in H|apply elem_of_nil in H];
      contradiction.
  - destruct (addToSearchQueue_cases _ _ _ _ _ Hadd)
      as [->|(_ & _ & _ & Hp & _ & Hf)]; [apply IH|].
    rewrite Hp. unfold entry_keys in *. simpl.
    destruct (block_entry_key M s) as [k0|].
    + destruct Hf as [_ ->]. rewrite elem_of_union, elem_of_singleton, elem_of_cons.
      rewrite IH. reflexivity.
    + rewrite Hf. apply IH.
  - apply popFromSeachQueue_cases in Hpop as (_ & Hf & _ & Hp & _).
    rewrite Hf, Hp. apply IH.
  - simpl. apply IH.
Qed.

(** X11.  In every searcher that the operations produce from a new one,
    the states pushed so far are, counted with repetition, the states still
    in the queue together with the states removed for expansion: no state is
    dropped from the queue other than by [popFromSeachQueue], and none is
    expanded twice. *)
Theorem pushed_queued_or_popped (this : BFSearcher) :
  reachable M C this →
  pushed this ≡ₚ searchqueue this ++ popped this
  ∧ length (pushed this) = length (searchqueue this) + length (popped this).
Proof.
  intros Hr. pose proof (inv_perm _ _ _ (reachable_Inv _ _ _ Hr)) as Hp.
  split; [exact Hp|]. rewrite Hp, length_app. reflexivity.
Qed.

(** X12.  In every searcher that the operations produce from a new one
    the queue holds at most [maxQueueLength + 1] states, [maxQueueLength]
    being a [size_t] value (for another integer, its conversion to
    [size_t]). *)
Theorem searchqueue_length_invariant (this : BFSearcher) :
  reachable M C this →
  (Z.of_nat (length (searchqueue this)) ≤ size_t_of (maxQueueLength C) + 1)%Z
  ∧ ((0 ≤ maxQueueLength C ≤ SIZE_MAX)%Z →
     (Z.of_nat (length (searchqueue this)) ≤ maxQueueLength C + 1)%Z).
Proof.
  intros Hr. pose proof (inv_size _ _ _ (reachable_Inv _ _ _ Hr)) as Hs.
  split; [exact Hs|]. intros H.
  rewrite (size_t_of_small _ H) in Hs. exact Hs.
Qed.

End Filter.

(** * The states produced by an expansion step *)

Section Expansion.

Context (M : LLVMModule) (C : Config).

Lemma adds_sat_one (P : BFSearchState → Prop) this s this' :
  P s → addToSearchQueue M C this s = Ok this' → adds_sat M C P this this'.
Proof. intros. eapply adds_sat_cons; [eassumption|eassumption|apply adds_sat_nil]. Qed.

Lemma adds_sat_trans (P : BFSearchState → Prop) this1 this2 this3 :
  adds_sat M C P this1 this2 → adds_sat M C P this2 this3 →
  adds_sat M C P this1 this3.
Proof.
  induction 1; intros H3; [exact H3|].
  eapply adds_sat_cons; [eassumption|eassumption|]. apply IHadds_sat, H3.
Qed.

(** What a sequence of returning [addToSearchQueue] calls does to the
    searcher. *)
Lemma adds_sat_effect (P : BFSearchState → Prop) this this' :
  adds_sat M C P this this' →
  ∃ added,
    pushed this' = added ++ pushed this
    ∧ Forall P added
    ∧ searchqueue this' ≡ₚ added ++ searchqueue this
    ∧ duplicateFilter this ⊆ duplicateFilter this'
    ∧ popped this' = popped this
    ∧ iterationCounter this' = iterationCounter this.
Proof.
  induction 1 as [this|this s this1 this2 HP Hadd _ IH].
  - exists []. simpl. repeat split; auto.
  - destruct IH as (added & Hp & HF & Hq & Hf & Hpo & Hc).
    destruct (addToSearchQueue_cases _ _ _ _ _ Hadd)
      as [->|(_ & Hq1 & Hc1 & Hp1 & Hpo1 & Hf1)].
    + exists added. repeat split; assumption.
    + exists (added ++ [s]). rewrite <- !app_assoc. simpl.
      split; [rewrite Hp, Hp1; reflexivity|].
      split; [apply Forall_app; split; [exact HF|constructor; [exact HP|constructor]]|].
      split; [rewrite Hq, Hq1, pq_push_perm; reflexivity|].
      split; [|split; congruence].
      etransitivity; [|exact Hf].
      destruct (block_entry_key M s) as [k|].
      * destruct Hf1 as [_ ->]. apply union_subseteq_r.
      * rewrite Hf1. reflexivity.
Qed.

Lemma enqueueInSearchQueue_add this old next stk this' :
  enqueueInSearchQueue M C this old next stk = Ok this' →
  ∃ i, instruction old = it_at i
       ∧ addToSearchQueue M C this
           {| instruction := next;
              distanceFromStart :=
                uint_add (distanceFromStart old) (distanceToPass C i);
              stack := stk |} = Ok this'.
Proof.
  unfold enqueueInSearchQueue, deref.
  destruct (instruction old) as [|i|bb]; simpl; try discriminate.
  intros H. exists i. split; [reflexivity|exact H].
Qed.

Lemma enqueue_successors_sat curr i succs : ∀ this this',
  instruction curr = it_at i →
  isa_CallInst M i = false → isa_ReturnInst M i = false →
  isa_TerminatorInst M i = true →
  (∀ sb, sb ∈ succs → sb ∈ successors M (getParent M i)) →
  enqueue_successors M C this curr succs = Ok this' →
  adds_sat M C (successor M C curr) this this'.
Proof.
  induction succs as [|sb succs IH]; intros this this' Hi Hc Hr Ht Hsub; simpl.
  - intros [= <-]. apply adds_sat_nil.
  - destruct (enqueueInSearchQueue M C this curr (bb_begin M sb) (stack curr))
      as [this1| |] eqn:H1; try discriminate.
    simpl. intros H2.
    apply enqueueInSearchQueue_add in H1 as (i' & Hi' & Hadd).
    assert (i' = i) by congruence. subst i'.
    eapply adds_sat_cons; [|exact Hadd|].
    + apply (succ_branch M C curr i sb Hi Hc Hr Ht). apply Hsub. left.
    + apply IH; try assumption. intros sb' Hin. apply Hsub. right. exact Hin.
Qed.

Lemma enqueue_next_sat this curr i this' :
  instruction curr = it_at i →
  (isa_CallInst M i = true ∧ external_call M i
   ∨ isa_CallInst M i = false ∧ isa_ReturnInst M i = false
     ∧ isa_TerminatorInst M i = false) →
  enqueue_next M C this curr = Ok this' →
  adds_sat M C (successor M C curr) this this'.
Proof.
  intros Hi Hkind. unfold enqueue_next. rewrite Hi.
  destruct (incr M (it_at i)) as [nxt| |] eqn:Hn; try discriminate.
  simpl. intros H.
  apply enqueueInSearchQueue_add in H as (i' & Hi' & Hadd).
  assert (i' = i) by congruence. subst i'.
  eapply adds_sat_one; [|exact Hadd].
  apply (succ_next M C curr i nxt Hi Hkind Hn).
Qed.

(** One step removes the top of the queue and then calls
    [addToSearchQueue] on successors of that state only. *)
Lemma doSingleSearchIteration_successors this this'' :
  doSingleSearchIteration M C this = Ok this'' →
  ∃ curr this',
    popFromSeachQueue this = Ok (curr, this')
    ∧ adds_sat M C (successor M C curr) this' this''.
Proof.
  unfold doSingleSearchIteration.
  destruct (popFromSeachQueue this) as [[curr this']| |] eqn:Hpop; try discriminate.
  simpl mbind. destruct (instruction curr) as [|i|bb] eqn:Hi; try discriminate.
  intros H. exists curr, this'. split; [reflexivity|].
  destruct (isa_CallInst M i) eqn:Hcall.
  - destruct (getCalledFunction M i) as [called|] eqn:Hcalled.
    + destruct (isIntrinsic M called) eqn:Hintr; simpl in H.
      * eapply enqueue_next_sat; [exact Hi| |exact H].
        left. split; [exact Hcall|]. right. exists called. auto.
      * unfold fn_empty, fn_front in H.
        destruct (blocks M called) as [|entry bbs] eqn:Hb; simpl in H.
        -- eapply enqueue_next_sat; [exact Hi| |exact H].
           left. split; [exact Hcall|]. right. exists called. auto.
        -- destruct (doesIntroduceRecursion M curr {| call := it_at i |})
             as [rec| |] eqn:Hrec; try discriminate.
           simpl in H. destruct rec; simpl in H.
           ++ injection H as <-. apply adds_sat_nil.
           ++ apply enqueueInSearchQueue_add in H as (i' & Hi' & Hadd).
              simpl in Hi'. assert (i' = i) by congruence. subst i'.
              eapply adds_sat_one; [|exact Hadd].
              eapply (succ_call M C curr i called entry bbs); eassumption.
    + eapply enqueue_next_sat; [exact Hi| |exact H].
      left. split; [exact Hcall|]. left. exact Hcalled.
  - destruct (isa_ReturnInst M i) eqn:Hret.
    + destruct (stack curr) as [|gobackto rest] eqn:Hs.
      * injection H as <-. apply adds_sat_nil.
      * destruct (incr M (call gobackto)) as [nxt| |] eqn:Hn; try discriminate.
        simpl in H. apply enqueueInSearchQueue_add in H as (i' & Hi' & Hadd).
        simpl in Hi'. assert (i' = i) by congruence. subst i'.
        eapply adds_sat_one; [|exact Hadd].
        eapply (succ_return M C curr i gobackto rest nxt); eassumption.
    + destruct (isa_TerminatorInst M i) eqn:Hterm.
      * eapply enqueue_successors_sat; try eassumption. auto.
      * eapply enqueue_next_sat; [exact Hi| |exact H]. right. auto.
Qed.

Lemma successor_fields curr s :
  successor M C curr s →
  ∃ i, instruction curr = it_at i
       ∧ distanceFromStart s
         = uint_add (distanceFromStart curr) (distanceToPass C i)
       ∧ (stack s = stack curr
          ∨ stack s = {| call := it_at i |} :: stack curr
          ∨ ∃ e, stack curr = e :: stack s).
Proof.
  destruct 1 as [i called entry bbs Hi|i gobackto rest nxt Hi _ _ Hs|i sb Hi|i nxt Hi];
    exists i; simpl; (split; [exact Hi|]); (split; [reflexivity|]); eauto.
Qed.

(** X13.  A returning [doSingleSearchIteration] removes exactly the top
    state of the queue and logs it as expanded, leaves the counter alone,
    keeps every other queued state, and only adds to the filter.  Every
    state it pushes has the distance of the removed state plus the weight of
    its instruction (as [uint]), and a stack that is the stack of the
    removed state, or that stack with the removed state's own call on top,
    or that stack without its top. *)
Theorem doSingleSearchIteration_effect (this this'' : BFSearcher) :
  doSingleSearchIteration M C this = Ok this'' →
  ∃ curr rest i added,
    searchqueue this = curr :: rest
    ∧ instruction curr = it_at i
    ∧ popped this'' = curr :: popped this
    ∧ iterationCounter this'' = iterationCounter this
    ∧ pushed this'' = added ++ pushed this
    ∧ searchqueue this'' ≡ₚ added ++ rest
    ∧ duplicateFilter this ⊆ duplicateFilter this''
    ∧ Forall (fun s =>
                distanceFromStart s
                = uint_add (distanceFromStart curr) (distanceToPass C i)
                ∧ (stack s = stack curr
                   ∨ stack s = {| call := it_at i |} :: stack curr
                   ∨ ∃ e, stack curr = e :: stack s)) added.
Proof.
  intros H. pose proof (doSingleSearchIteration_shape _ _ _ _ H)
    as (curr0 & this0 & i & Hpop0 & Hi & _).
  apply doSingleSearchIteration_successors in H as (curr & this' & Hpop & Hadds).
  assert (curr0 = curr) by congruence. subst curr0.
  apply adds_sat_effect in Hadds as (added & Hp & HF & Hq & Hf & Hpo & Hc).
  apply popFromSeachQueue_cases in Hpop as (Hq1 & Hf1 & Hc1 & Hp1 & Hpo1).
  exists curr, (searchqueue this'), i, added.
  split; [exact Hq1|]. split; [exact Hi|]. split; [congruence|].
  split; [congruence|]. split; [congruence|]. split; [exact Hq|].
  split; [rewrite <- Hf1; exact Hf|].
  eapply Forall_impl; [exact HF|]. intros s Hs.
  apply successor_fields in Hs as (i' & Hi' & Hd & Hst).
  assert (i' = i) by congruence. subst i'. auto.
Qed.



(** X15.  The top of the queue is an instruction that is neither a call,
    nor a return, nor another terminator.  The step is the removal followed
    by one [addToSearchQueue], of the state at the instruction that follows
    in the block, with the same stack and the weight of the instruction
    added to the distance. *)
Theorem doSingleSearchIteration_ordinary
    (this this' : BFSearcher) (curr : BFSearchState) (i nxt : Instruction)
    (pre post : list Instruction) :
  popFromSeachQueue this = Ok (curr, this') →
  instruction curr = it_at i →
  kind M i = K_Other →
  instructions M (getParent M i) = pre ++ i :: nxt :: post →
  i ∉ pre →
  doSingleSearchIteration M C this =
  addToSearchQueue M C this'
    {| instruction := it_at nxt;
       distanceFromStart :=
         uint_add (distanceFromStart curr) (distanceToPass C i);
       stack := stack curr |}.
Proof.
  intros Hpop Hi Hk Hl Hnotin.
  unfold doSingleSearchIteration. rewrite Hpop. simpl mbind. rewrite Hi.
  unfold isa_CallInst, isa_ReturnInst, isa_TerminatorInst. rewrite Hk.
  unfold enqueue_next. rewrite Hi.
  rewrite (incr_following M _ _ _ _ Hl Hnotin). simpl mbind.
  unfold enqueueInSearchQueue. rewrite Hi. reflexivity.
Qed.

End Expansion.

(** * Chains of expansion steps *)

Section Chains.

Context (M : LLVMModule) (C : Config).

Lemma probe_stack_false nextcalled stk :
  probe_stack M nextcalled stk = Ok false →
  Forall (fun e => callee M e ≠ nextcalled) stk.
Proof.
  induction stk as [|e stk IH]; simpl; [constructor|].
  unfold cast_CallInst.
  destruct (call e) as [|c|bb] eqn:Hc; simpl; try discriminate.
  destruct (isa_CallInst M c); simpl; try discriminate.
  destruct (decide (nextcalled = getCalledFunction M c)) as [Heq|Hne];
    [discriminate|].
  intros H. constructor; [unfold callee; rewrite Hc; congruence|]. apply IH, H.
Qed.

Lemma doesIntroduceRecursion_false curr i :
  doesIntroduceRecursion M curr {| call := it_at i |} = Ok false →
  Forall (fun e => callee M e ≠ getCalledFunction M i) (stack curr).
Proof.
  unfold doesIntroduceRecursion.
  destruct (stack curr) as [|e stk]; [constructor|].
  simpl call. unfold cast_CallInst at 1.
  destruct (isa_CallInst M i); [|discriminate].
  exact (probe_stack_false (getCalledFunction M i) (e :: stk)).
Qed.

Lemma not_elem_of_map {A B} (f : A → B) (x : B) (l : list A) :
  Forall (fun a => f a ≠ x) l → x ∉ map f l.
Proof.
  induction 1 as [|a l Ha _ IH]; simpl; [apply not_elem_of_nil|].
  apply not_elem_of_cons. split; [congruence|exact IH].
Qed.

Lemma successor_recursion_free curr s :
  recursion_free M curr → successor M C curr s → recursion_free M s.
Proof.
  unfold recursion_free. intros Hnd.
  destruct 1 as [i called entry bbs Hi _ _ _ _ Hrec
                |i gobackto rest nxt _ _ _ Hs _|i sb|i nxt]; simpl; try exact Hnd.
  - apply NoDup_cons. split; [|exact Hnd].
    apply not_elem_of_map. apply doesIntroduceRecursion_false, Hrec.
  - rewrite Hs in Hnd. simpl in Hnd. apply NoDup_cons in Hnd as [_ Hnd].
    exact Hnd.
Qed.

Lemma derivable_recursion_free s0 path s :
  recursion_free M s0 → derivable M C s0 path s → recursion_free M s.
Proof.
  intros H0. induction 1 as [|path p i s _ IH _ Hsucc]; [exact H0|].
  eapply successor_recursion_free; eassumption.
Qed.

Lemma path_weight_snoc path i :
  path_weight C (path ++ [i]) = (path_weight C path + distanceToPass C i)%Z.
Proof.
  unfold path_weight. induction path as [|j path IH]; simpl; [lia|].
  rewrite IH. lia.
Qed.

Lemma derivable_distance s0 path s :
  uint_range (distanceFromStart s0) →
  derivable M C s0 path s →
  distanceFromStart s
  = ((distanceFromStart s0 + path_weight C path) mod 4294967296)%Z.
Proof.
  intros H0. induction 1 as [|path p i s _ IH Hi Hsucc].
  - simpl. unfold uint_range, UINT_MAX in H0.
    rewrite Z.add_0_r, Z.mod_small by lia. reflexivity.
  - apply successor_fields in Hsucc as (i' & Hi' & Hd & _).
    assert (i' = i) by congruence. subst i'.
    rewrite Hd, IH, path_weight_snoc. unfold uint_add.
    rewrite Zplus_mod_idemp_l. f_equal. lia.
Qed.

(** Every state pushed during a query comes from the start state by a
    chain of expansion steps. *)
Lemma during_query_derivable start stk this :
  during_query M C start stk this →
  Forall (fun s => ∃ path, derivable M C (BFSearchState_new M start 0 stk) path s)
         (pushed this).
Proof.
  induction 1 as [this Hnew|this top rest this'' Hdq IH Hcond Hq Ht Hstep].
  - apply BFSearcher_new_shape in Hnew as (this0 & Hadd & ->). simpl.
    destruct (addToSearchQueue_cases _ _ _ _ _ Hadd)
      as [->|(_ & _ & _ & Hp & _ & _)]; [constructor|].
    rewrite Hp. constructor; [|constructor].
    exists []. apply derivable_start.
  - simpl.
    pose proof (during_query_reachable _ _ _ _ _ Hdq) as Hr.
    pose proof (inv_perm _ _ _ (reachable_Inv _ _ _ Hr)) as Hperm.
    apply doSingleSearchIteration_successors in Hstep
      as (curr & this' & Hpop & Hadds).
    apply adds_sat_effect in Hadds as (added & Hp & HF & _).
    apply popFromSeachQueue_cases in Hpop as (Hq1 & _ & _ & Hp1 & _).
    assert (Hcurr : ∃ path, derivable M C (BFSearchState_new M start 0 stk) path curr).
    { rewrite Hperm, Hq1 in IH. simpl in IH. apply Forall_cons in IH as [H _].
      exact H. }
    destruct Hcurr as (path & Hpath).
    rewrite Hp, Hp1. apply Forall_app. split; [|exact IH].
    eapply Forall_impl; [exact HF|]. intros s Hs.
    pose proof (successor_fields M C _ _ Hs) as (i & Hi & _).
    exists (path ++ [i]). eapply derivable_step; eassumption.
Qed.

(** X16.  When no function is called from two entries of the initial
    stack (as with an empty initial stack), no state pushed during the query
    has a stack with two entries that call the same function: the search
    never follows a call into a function that is already on the stack of the
    state it expands. *)
Theorem pushed_stacks_recursion_free (start : Instruction) (stk : list Instruction) :
  recursion_free M (BFSearchState_new M start 0 stk) →
  (∀ this, during_query M C start stk this →
     Forall (recursion_free M) (pushed this))
  ∧ (∀ r this, query M C start stk = Some (Ok (r, this)) →
       Forall (recursion_free M) (pushed this)).
Proof.
  intros H0.
  assert (Hdq : ∀ this, during_query M C start stk this →
                        Forall (recursion_free M) (pushed this)).
  { intros this Hdq. apply during_query_derivable in Hdq.
    eapply Forall_impl; [exact Hdq|]. intros s (path & Hpath).
    eapply derivable_recursion_free; eassumption. }
  split; [exact Hdq|]. intros r this Hq. eapply Hdq, query_during, Hq.
Qed.

(** X17.  A distance returned by a query, other than [UNREACHABLE], is
    the distance of a state that satisfies [isTheTarget] and that comes from
    the start state by a chain of expansion steps; it is the sum of the
    weights of the instructions expanded along that chain, modulo 2^32. *)
Theorem returned_distance_is_path_weight
    (start : Instruction) (stk : list Instruction) (r : Z) (this : BFSearcher) :
  query M C start stk = Some (Ok (r, this)) →
  r ≠ UNREACHABLE →
  ∃ path s,
    derivable M C (BFSearchState_new M start 0 stk) path s
    ∧ isTheTarget C s = true
    ∧ distanceFromStart s = r
    ∧ r = (path_weight C path mod 4294967296)%Z.
Proof.
  intros Hq Hr.
  pose proof (query_during _ _ _ _ _ _ Hq) as Hdq.
  pose proof (during_query_derivable _ _ _ Hdq) as Hder.
  pose proof (during_query_reachable _ _ _ _ _ Hdq) as Hreach.
  pose proof (inv_perm _ _ _ (reachable_Inv _ _ _ Hreach)) as Hperm.
  unfold query in Hq.
  destruct (BFSearcher_new M C start stk) as [this0| |]; try discriminate.
  apply search_loop_result in Hq as [[-> _]|(top & rest & Hsq & Ht & -> & _)];
    [contradiction|].
  rewrite Hperm, Hsq in Hder. simpl in Hder.
  apply Forall_cons in Hder as [(path & Hpath) _].
  exists path, top. split; [exact Hpath|]. split; [exact Ht|].
  split; [reflexivity|].
  assert (H0 : uint_range (distanceFromStart (BFSearchState_new M start 0 stk)))
    by (unfold uint_range, UINT_MAX; simpl; lia).
  rewrite (derivable_distance _ _ _ H0 Hpath). reflexivity.
Qed.

(** X18.  At every head of the loop of a query, and so when the query
    returns, [iterationCounter] is the number of states removed from the
    queue for expansion ([maxIterations] being a [uint] value, the counter
    never wraps around). *)
Theorem iterationCounter_counts_expansions
    (start : Instruction) (stk : list Instruction) :
  (maxIterations C ≤ UINT_MAX)%Z →
  (∀ this, during_query M C start stk this →
     iterationCounter this = Z.of_nat (length (popped this)))
  ∧ (∀ r this, query M C start stk = Some (Ok (r, this)) →
       iterationCounter this = Z.of_nat (length (popped this))).
Proof.
  intros Hmax. split.
  - intros this Hdq. apply (during_query_counter _ _ _ _ _ Hmax Hdq).
  - intros r this Hq. apply query_during in Hq.
    apply (during_query_counter _ _ _ _ _ Hmax Hq).
Qed.

End Chains.

(** * The further properties on the small module *)

Section MoreOnDemo.

Import Demo.

Lemma linked_0 : linked module 0.
Proof. unfold linked. simpl. left. Qed.

Lemma reachable_started_0 : reachable module (config 2) (started 2 0 []).
Proof. apply (reachable_BFSearcher_new module (config 2) 0 []). reflexivity. Qed.

Lemma getIteratorOnInstruction_result_witness :
  getIteratorOnInstruction module 4 = it_at 4
  ∧ getIteratorOnInstruction module 20 = it_end 4.
Proof.
  split.
  - apply (proj1 (getIteratorOnInstruction_result module 4)).
    unfold linked. simpl. left.
  - apply (proj1 (proj2 (getIteratorOnInstruction_result module 20))).
    unfold linked. simpl. apply not_elem_of_nil.
Defined.

Lemma BFSearchState_new_stack_witness :
  stack (BFSearchState_new module 7 0 [0; 8])
  = [{| call := it_at 8 |}; {| call := it_at 0 |}].
Proof.
  apply (proj2 (proj2 (proj2 (BFSearchState_new_stack module 7 0 [0; 8])))).
  repeat constructor.
Defined.

Lemma BFSearcher_new_result_witness :
  ∃ this,
    BFSearcher_new module (config 2) 0 [] = Ok this
    ∧ iterationCounter this = 0%Z
    ∧ popped this = []
    ∧ searchqueue this = [BFSearchState_new module 0 0 []].
Proof.
  destruct (BFSearcher_new_result module (config 2) 0 [] linked_0)
    as (this & H1 & H2 & H3 & H4 & _).
  exists this. repeat (split; [assumption|]). exact H4.
Defined.

(** The query started at the target, instruction 5. *)
Lemma query_start_is_target_witness :
  ∃ this, query module (config 2) 5 [] = Some (Ok (0%Z, this))
          ∧ popped this = []
          ∧ searchqueue this = [BFSearchState_new module 5 0 []].
Proof.
  apply (query_start_is_target module (config 2) 5 []).
  - unfold linked. simpl. right. left.
  - vm_compute. discriminate.
  - reflexivity.
  - reflexivity.
  - reflexivity.
Defined.

(** The same query with [maxIterations = 0]. *)
Lemma query_zero_limit_witness :
  ∃ this,
    query module
      {| maxDistance := 100;
         maxIterations := 0;
         maxQueueLength := 2;
         isTheTarget := fun s => bool_decide (instruction s = it_at 5);
         distanceToPass := fun _ => 1%Z |} 5 []
    = Some (Ok (UNREACHABLE, this))
    ∧ popped this = []
    ∧ searchqueue this = [BFSearchState_new module 5 0 []].
Proof.
  apply (query_zero_limit module
           {| maxDistance := 100;
              maxIterations := 0;
              maxQueueLength := 2;
              isTheTarget := fun s => bool_decide (instruction s = it_at 5);
              distanceToPass := fun _ => 1%Z |} 5 []).
  - unfold linked. simpl. right. left.
  - left. reflexivity.
Defined.

Lemma searchForMinimalDistance_terminates_witness :
  ∃ res,
    searchForMinimalDistance module (config 2) (started 2 0 []) = Some res
    ∧ search_loop module (config 2) 1000 (started 2 0 []) = Some res.
Proof.
  destruct (searchForMinimalDistance_terminates module (config 2) (started 2 0 []))
    as (res & H1 & H2).
  - vm_compute. discriminate.
  - vm_compute. discriminate.
  - exists res. split; [exact H1|]. apply H2. vm_compute. discriminate.
Defined.

Lemma addToSearchQueue_admission_witness :
  ∃ this',
    addToSearchQueue module (config 2) (started 2 0 []) (state_at 6 1 [0])
    = Ok this'
    ∧ pushed this' = state_at 6 1 [0] :: pushed (started 2 0 []).
Proof.
  destruct (addToSearchQueue_admission module (config 2) (started 2 0 [])
              (state_at 6 1 [0]) 6 eq_refl)
    as (this' & H1 & H2 & _).
  - discriminate.
  - exists this'. split; [exact H1|]. apply H2. reflexivity.
Defined.

Lemma rememberAsAdded_then_wasAddedEarlier_witness :
  wasAddedEarlier module
    {| searchqueue := [];
       duplicateFilter := {[ (0, []) ]} ∪ ∅;
       iterationCounter := 0;
       pushed := [];
       popped := [] |}
    (state_at 0 99 []) = Ok true.
Proof.
  apply (proj1 (rememberAsAdded_then_wasAddedEarlier module fresh _
                  (state_at 0 0 []) eq_refl) (state_at 0 99 []));
    reflexivity.
Defined.

(** The start state at instruction 0 is pushed by the constructor; after
    the first expansion step a state at instruction 0 with the empty stack
    is still not added. *)
Lemma addToSearchQueue_repeat_witness :
  addToSearchQueue module (config 2) (started 2 0 []) (state_at 0 5 [])
  = Ok (started 2 0 [])
  ∧ addToSearchQueue module (config 2)
      (loop_round module (config 2) (started 2 0 [])) (state_at 0 5 [])
    = Ok (loop_round module (config 2) (started 2 0 [])).
Proof.
  destruct (addToSearchQueue_repeat module (config 2) fresh (started 2 0 [])
              (state_at 0 0 []) (0, []) eq_refl eq_refl) as (H1 & H2 & H3).
  split.
  - apply H1; reflexivity.
  - apply (H2 eq_refl); [|reflexivity|reflexivity].
    destruct (doSingleSearchIteration module (config 2) (started 2 0 []))
      as [t| |] eqn:Hstep.
    + assert (Hround : loop_round module (config 2) (started 2 0 [])
                       = count_iteration t).
      { unfold loop_round. rewrite Hstep. reflexivity. }
      rewrite Hround. apply (H3 (started 2 0 []) t); [apply later_refl|exact Hstep].
    + vm_compute in Hstep. discriminate Hstep.
    + vm_compute in Hstep. discriminate Hstep.
Defined.

Lemma duplicateFilter_exact_witness :
  (0, []) ∈ duplicateFilter (started 2 0 [])
  ↔ (0, []) ∈ entry_keys module (pushed (started 2 0 [])).
Proof.
  apply (duplicateFilter_exact module (config 2) (started 2 0 [])
           reachable_started_0).
Defined.

Lemma pushed_queued_or_popped_witness :
  pushed (started 2 0 [])
  ≡ₚ searchqueue (started 2 0 []) ++ popped (started 2 0 [])
  ∧ length (pushed (started 2 0 []))
    = length (searchqueue (started 2 0 [])) + length (popped (started 2 0 [])).
Proof.
  apply (pushed_queued_or_popped module (config 2) (started 2 0 [])
           reachable_started_0).
Defined.

Lemma searchqueue_length_invariant_witness :
  (Z.of_nat (length (searchqueue (started 2 0 []))) ≤ maxQueueLength (config 2) + 1)%Z.
Proof.
  apply (proj2 (searchqueue_length_invariant module (config 2) (started 2 0 [])
                  reachable_started_0)).
  vm_compute. split; discriminate.
Defined.

(** The expansion of the branch at instruction 2. *)
Lemma doSingleSearchIteration_effect_witness :
  ∃ this'',
    doSingleSearchIteration module (config 2) (started 2 2 []) = Ok this''
    ∧ ∃ curr rest i added,
        searchqueue (started 2 2 []) = curr :: rest
        ∧ instruction curr = it_at i
        ∧ popped this'' = curr :: popped (started 2 2 [])
        ∧ iterationCounter this'' = iterationCounter (started 2 2 [])
        ∧ pushed this'' = added ++ pushed (started 2 2 [])
        ∧ searchqueue this'' ≡ₚ added ++ rest
        ∧ duplicateFilter (started 2 2 []) ⊆ duplicateFilter this''
        ∧ Forall (fun s =>
                    distanceFromStart s
                    = uint_add (distanceFromStart curr)
                               (distanceToPass (config 2) i)
                    ∧ (stack s = stack curr
                       ∨ stack s = {| call := it_at i |} :: stack curr
                       ∨ ∃ e, stack curr = e :: stack s)) added.
Proof.
  destruct (doSingleSearchIteration module (config 2) (started 2 2 []))
    as [t| |] eqn:H.
  - exists t. split; [reflexivity|].
    exact (doSingleSearchIteration_effect module (config 2) _ _ H).
  - vm_compute in H. discriminate H.
  - vm_compute in H. discriminate H.
Defined.


Lemma doSingleSearchIteration_ordinary_witness :
  doSingleSearchIteration module (config 2) (started 2 4 [])
  = addToSearchQueue module (config 2) (after_pop (started 2 4 []))
      (state_at 5 1 []).
Proof.
  refine (doSingleSearchIteration_ordinary module (config 2)
            (started 2 4 []) (after_pop (started 2 4 [])) (state_at 4 0 [])
            4 5 [] [] eq_refl eq_refl eq_refl eq_refl _).
  apply not_elem_of_nil.
Defined.

Lemma pushed_stacks_recursion_free_witness :
  ∃ this,
    query module (config 2) 0 [] = Some (Ok (6%Z, this))
    ∧ Forall (recursion_free module) (pushed this).
Proof.
  assert (H0 : recursion_free module (BFSearchState_new module 0 0 [])).
  { unfold recursion_free. simpl. constructor. }
  destruct (pushed_stacks_recursion_free module (config 2) 0 [] H0) as [_ H].
  eexists. split; [vm_compute; reflexivity|].
  eapply H. vm_compute. reflexivity.
Defined.

Lemma returned_distance_is_path_weight_witness :
  ∃ path s,
    derivable module (config 2) (BFSearchState_new module 0 0 []) path s
    ∧ isTheTarget (config 2) s = true
    ∧ distanceFromStart s = 6%Z
    ∧ 6%Z = (path_weight (config 2) path mod 4294967296)%Z.
Proof.
  eapply (returned_distance_is_path_weight module (config 2) 0 [] 6).
  - vm_compute. reflexivity.
  - vm_compute. discriminate.
Defined.

Lemma iterationCounter_counts_expansions_witness :
  ∃ this,
    query module (config 2) 0 [] = Some (Ok (6%Z, this))
    ∧ iterationCounter this = Z.of_nat (length (popped this)).
Proof.
  assert (Hmax : (maxIterations (config 2) ≤ UINT_MAX)%Z).
  { vm_compute. discriminate. }
  destruct (iterationCounter_counts_expansions module (config 2) 0 [] Hmax)
    as [_ H].
  eexists. split; [vm_compute; reflexivity|].
  eapply H. vm_compute. reflexivity.
Defined.

End MoreOnDemo.

(** * What an expansion step leaves in the queue *)

Section Rules.

Context (M : LLVMModule) (C : Config).

(** After the removal of the top state the queue of a reachable searcher
    has room: only the filter decides on the next insertion. *)
Lemma admits_after_pop this curr this' s :
  reachable M C this →
  popFromSeachQueue this = Ok (curr, this') →
  admits M C this' s
  = negb match block_entry_key M s with
         | Some k => bool_decide (k ∈ duplicateFilter this)
         | None => false
         end.
Proof.
  intros Hr Hpop.
  pose proof (inv_size _ _ _ (reachable_Inv _ _ _ Hr)) as Hsz.
  apply popFromSeachQueue_cases in Hpop as (Hq & Hf & _).
  rewrite Hq in Hsz. simpl length in Hsz.
  unfold admits. rewrite Hf.
  replace (Z.of_nat (length (searchqueue this'))
           <=? size_t_of (maxQueueLength C))%Z with true
    by (symmetry; apply Z.leb_le; lia).
  apply andb_true_r.
Qed.

Lemma add_after_pop this curr this' s i :
  reachable M C this →
  popFromSeachQueue this = Ok (curr, this') →
  instruction s = it_at i →
  instructions M (getParent M i) ≠ [] →
  (block_entry_key M s = None ∨
   ∃ k, block_entry_key M s = Some k ∧ k ∉ duplicateFilter this) →
  ∃ this'',
    addToSearchQueue M C this' s = Ok this''
    ∧ searchqueue this'' ≡ₚ s :: searchqueue this'
    ∧ pushed this'' = s :: pushed this
    ∧ popped this'' = curr :: popped this
    ∧ ∀ k, k ∈ duplicateFilter this''
           ↔ block_entry_key M s = Some k ∨ k ∈ duplicateFilter this.
Proof.
  intros Hr Hpop Hi Hne Hkey.
  rewrite (addToSearchQueue_eq M C this' s i Hi Hne).
  rewrite (admits_after_pop this curr this' s Hr Hpop).
  apply popFromSeachQueue_cases in Hpop as (_ & Hf & _ & Hp & Hpo).
  assert (Hfresh : match block_entry_key M s with
                   | Some k => bool_decide (k ∈ duplicateFilter this)
                   | None => false
                   end = false).
  { destruct Hkey as [->|(k & -> & Hnot)]; [reflexivity|].
    apply bool_decide_eq_false_2, Hnot. }
  rewrite Hfresh. simpl negb. cbv iota.
  eexists. split; [reflexivity|]. simpl.
  split; [apply pq_push_perm|]. split; [congruence|]. split; [congruence|].
  intros k. rewrite Hf. destruct (block_entry_key M s) as [k0|].
  - rewrite elem_of_union, elem_of_singleton. split.
    + intros [->|H]; auto.
    + intros [[= ->]|H]; auto.
  - split; [auto|]. intros [H|H]; [discriminate|exact H].
Qed.

Lemma add_after_pop_recorded this curr this' s k :
  popFromSeachQueue this = Ok (curr, this') →
  block_entry_key M s = Some k →
  k ∈ duplicateFilter this →
  addToSearchQueue M C this' s = Ok this'.
Proof.
  intros Hpop Hkey Hin. apply (addToSearchQueue_recorded M C this' s k Hkey).
  apply popFromSeachQueue_cases in Hpop as (_ & Hf & _). rewrite Hf. exact Hin.
Qed.

(** The instruction that follows another one in a block without
    repetition is not the first of the block. *)
Lemma following_not_first (pre post : list Instruction) (i nxt : Instruction) :
  NoDup (pre ++ i :: nxt :: post) →
  head (pre ++ i :: nxt :: post) ≠ Some nxt.
Proof.
  destruct pre as [|x pre]; simpl; intros Hnd [= Heq]; subst.
  - apply NoDup_cons in Hnd as [Hnot _]. apply Hnot. left.
  - apply NoDup_cons in Hnd as [Hnot _]. apply Hnot.
    apply elem_of_app. right. right. left.
Qed.

Lemma following_key (s : BFSearchState) (pre post : list Instruction)
    (i nxt : Instruction) :
  instruction s = it_at nxt →
  getParent M nxt = getParent M i →
  instructions M (getParent M i) = pre ++ i :: nxt :: post →
  NoDup (instructions M (getParent M i)) →
  block_entry_key M s = None
  ∧ instructions M (getParent M nxt) ≠ [].
Proof.
  intros Hs Hparent Hl Hnd. unfold block_entry_key. rewrite Hs, Hparent.
  rewrite Hl in Hnd. pose proof (following_not_first pre post i nxt Hnd) as Hh.
  rewrite Hl. split.
  - destruct (pre ++ i :: nxt :: post) as [|f l]; [reflexivity|].
    destruct (decide (f = nxt)) as [->|]; [|reflexivity].
    exfalso. apply Hh. reflexivity.
  - destruct pre; discriminate.
Qed.

(** C2, as the code has it.  The top of the queue is a call to a
    function that is resolved, not intrinsic and has a body whose entry
    block starts with [first].  When [doesIntroduceRecursion] answers true
    the step only removes the state.  When it answers false the step is the
    removal followed by one [addToSearchQueue] of the state [succ] at
    [first], whose stack is the old stack with an entry for the call on top
    and whose distance is the old distance plus the weight of the call,
    modulo 2^32.  In a searcher that the operations produce from a new one
    that state is dropped, and the step only removes, when the pair of
    [first] and that stack is already in the duplicate filter; otherwise the
    queue gains exactly that state and the filter that pair. *)
Theorem doSingleSearchIteration_defined_call
    (this this' : BFSearcher) (curr : BFSearchState) (c : Instruction)
    (called : Func) (entry : BasicBlock) (bbs : list BasicBlock)
    (first : Instruction) (insts : list Instruction) :
  popFromSeachQueue this = Ok (curr, this') →
  instruction curr = it_at c →
  isa_CallInst M c = true →
  getCalledFunction M c = Some called →
  isIntrinsic M called = false →
  blocks M called = entry :: bbs →
  instructions M entry = first :: insts →
  let next := {| call := it_at c |} in
  let succ := {| instruction := it_at first;
                 distanceFromStart :=
                   ((distanceFromStart curr + distanceToPass C c)
                    mod 4294967296)%Z;
                 stack := next :: stack curr |} in
  (doesIntroduceRecursion M curr next = Ok true →
   doSingleSearchIteration M C this = Ok this')
  ∧ (doesIntroduceRecursion M curr next = Ok false →
     doSingleSearchIteration M C this = addToSearchQueue M C this' succ
     ∧ (reachable M C this → getParent M first = entry →
        ((first, next :: stack curr) ∈ duplicateFilter this →
         doSingleSearchIteration M C this = Ok this')
        ∧ ((first, next :: stack curr) ∉ duplicateFilter this →
           ∃ this'',
             doSingleSearchIteration M C this = Ok this''
             ∧ searchqueue this'' ≡ₚ succ :: searchqueue this'
             ∧ pushed this'' = succ :: pushed this
             ∧ popped this'' = curr :: popped this
             ∧ ∀ k, k ∈ duplicateFilter this''
                    ↔ k = (first, next :: stack curr)
                      ∨ k ∈ duplicateFilter this)))
  ∧ ((0 ≤ distanceFromStart curr + distanceToPass C c ≤ UINT_MAX)%Z →
     distanceFromStart succ = (distanceFromStart curr + distanceToPass C c)%Z).
Proof.
  intros Hpop Hcurr Hcall Hcalled Hintr Hblocks Hinsts next succ.
  destruct (defined_call_step M C this this' curr c called entry bbs first insts
              Hpop Hcurr Hcall Hcalled Hintr Hblocks Hinsts)
    as (Htrue & Hfalse & Hexact).
  split; [exact Htrue|]. split; [|exact Hexact].
  intros Hrec. pose proof (Hfalse Hrec) as Hstep. fold next in Hstep.
  change (doSingleSearchIteration M C this = addToSearchQueue M C this' succ)
    in Hstep.
  split; [exact Hstep|]. intros Hr Hparent.
  assert (Hkey : block_entry_key M succ = Some (first, next :: stack curr)).
  { unfold block_entry_key. simpl. rewrite Hparent, Hinsts.
    destruct (decide (first = first)); [reflexivity|congruence]. }
  split.
  - intros Hin. rewrite Hstep.
    eapply add_after_pop_recorded; eassumption.
  - intros Hnot.
    destruct (add_after_pop this curr this' succ first Hr Hpop eq_refl)
      as (this'' & Hadd & Hq & Hp & Hpo & Hf).
    + rewrite Hparent, Hinsts. discriminate.
    + right. eauto.
    + exists this''. rewrite Hstep. split; [exact Hadd|].
      split; [exact Hq|]. split; [exact Hp|]. split; [exact Hpo|].
      intros k. rewrite Hf, Hkey. split.
      * intros [[= <-]|H]; auto.
      * intros [->|H]; auto.
Qed.

(** C4.  The top of the queue is a return instruction.  With an empty
    stack the step only removes the state.  Otherwise the step is the
    removal followed by one [addToSearchQueue], of the state at the
    instruction that follows the call site of the top stack entry in its
    block, with that entry taken off the stack and the weight of the return
    added to the distance.  In a searcher that the operations produce from a
    new one, the block being a list without repetition, that state is
    queued: the queue gains exactly that state and the filter is left as it
    was. *)
Theorem doSingleSearchIteration_return
    (this this' : BFSearcher) (curr : BFSearchState) (r : Instruction) :
  popFromSeachQueue this = Ok (curr, this') →
  instruction curr = it_at r →
  isa_ReturnInst M r = true →
  (stack curr = [] → doSingleSearchIteration M C this = Ok this')
  ∧ (∀ gobackto rest cs nxt pre post,
       stack curr = gobackto :: rest →
       call gobackto = it_at cs →
       instructions M (getParent M cs) = pre ++ cs :: nxt :: post →
       cs ∉ pre →
       let succ := {| instruction := it_at nxt;
                      distanceFromStart :=
                        uint_add (distanceFromStart curr) (distanceToPass C r);
                      stack := rest |} in
       doSingleSearchIteration M C this = addToSearchQueue M C this' succ
       ∧ (reachable M C this →
          NoDup (instructions M (getParent M cs)) →
          getParent M nxt = getParent M cs →
          ∃ this'',
            doSingleSearchIteration M C this = Ok this''
            ∧ searchqueue this'' ≡ₚ succ :: searchqueue this'
            ∧ pushed this'' = succ :: pushed this
            ∧ popped this'' = curr :: popped this
            ∧ duplicateFilter this'' = duplicateFilter this)
       ∧ distanceFromStart succ
         = ((distanceFromStart curr + distanceToPass C r) mod 4294967296)%Z
       ∧ ((0 ≤ distanceFromStart curr + distanceToPass C r ≤ UINT_MAX)%Z →
          distanceFromStart succ
          = (distanceFromStart curr + distanceToPass C r)%Z)).
Proof.
  intros Hpop Hcurr Hret.
  destruct (return_step M C this this' curr r Hpop Hcurr Hret) as [Hnil Hcons].
  split; [exact Hnil|].
  intros gobackto rest cs nxt pre post Hstk Hcs Hl Hnotin succ.
  destruct (Hcons gobackto rest cs nxt pre post Hstk Hcs Hl Hnotin)
    as [Hstep Hexact].
  change (doSingleSearchIteration M C this = addToSearchQueue M C this' succ)
    in Hstep.
  split; [exact Hstep|]. split; [|split; [reflexivity|exact Hexact]].
  intros Hr Hnd Hparent.
  destruct (following_key succ pre post cs nxt eq_refl Hparent Hl Hnd)
    as [Hkey Hne].
  destruct (add_after_pop this curr this' succ nxt Hr Hpop eq_refl Hne)
    as (this'' & Hadd & Hq & Hp & Hpo & Hf); [left; exact Hkey|].
  exists this''. rewrite Hstep. split; [exact Hadd|].
  split; [exact Hq|]. split; [exact Hp|]. split; [exact Hpo|].
  apply set_eq. intros k. rewrite Hf, Hkey. split.
  - intros [H|H]; [discriminate|exact H].
  - auto.
Qed.

(** C6.  The top of the queue is a call whose callee is unresolved,
    intrinsic or without a body.  The step is the removal followed by one
    [addToSearchQueue], of the state at the instruction that follows the
    call in its block, with the same stack and the weight of the call added
    once to the distance.  In a searcher that the operations produce from a
    new one, the block being a list without repetition, that state is
    queued: the queue gains exactly that state and the filter is left as it
    was. *)
Theorem doSingleSearchIteration_external_call
    (this this' : BFSearcher) (curr : BFSearchState) (c nxt : Instruction)
    (pre post : list Instruction) :
  popFromSeachQueue this = Ok (curr, this') →
  instruction curr = it_at c →
  isa_CallInst M c = true →
  external_call M c →
  instructions M (getParent M c) = pre ++ c :: nxt :: post →
  c ∉ pre →
  let succ := {| instruction := it_at nxt;
                 distanceFromStart :=
                   uint_add (distanceFromStart curr) (distanceToPass C c);
                 stack := stack curr |} in
  doSingleSearchIteration M C this = addToSearchQueue M C this' succ
  ∧ (reachable M C this →
     NoDup (instructions M (getParent M c)) →
     getParent M nxt = getParent M c →
     ∃ this'',
       doSingleSearchIteration M C this = Ok this''
       ∧ searchqueue this'' ≡ₚ succ :: searchqueue this'
       ∧ pushed this'' = succ :: pushed this
       ∧ popped this'' = curr :: popped this
       ∧ duplicateFilter this'' = duplicateFilter this)
  ∧ distanceFromStart succ
    = ((distanceFromStart curr + distanceToPass C c) mod 4294967296)%Z
  ∧ ((0 ≤ distanceFromStart curr + distanceToPass C c ≤ UINT_MAX)%Z →
     distanceFromStart succ = (distanceFromStart curr + distanceToPass C c)%Z).
Proof.
  intros Hpop Hcurr Hcall Hext Hl Hnotin succ.
  destruct (external_call_step M C this this' curr c nxt pre post
              Hpop Hcurr Hcall Hext Hl Hnotin) as [Hstep Hexact].
  change (doSingleSearchIteration M C this = addToSearchQueue M C this' succ)
    in Hstep.
  split; [exact Hstep|]. split; [|split; [reflexivity|exact Hexact]].
  intros Hr Hnd Hparent.
  destruct (following_key succ pre post c nxt eq_refl Hparent Hl Hnd)
    as [Hkey Hne].
  destruct (add_after_pop this curr this' succ nxt Hr Hpop eq_refl Hne)
    as (this'' & Hadd & Hq & Hp & Hpo & Hf); [left; exact Hkey|].
  exists this''. rewrite Hstep. split; [exact Hadd|].
  split; [exact Hq|]. split; [exact Hp|]. split; [exact Hpo|].
  apply set_eq. intros k. rewrite Hf, Hkey. split.
  - intros [H|H]; [discriminate|exact H].
  - auto.
Qed.

End Rules.

(** * The assertion of the expansion step *)

Section Assertion.

Context (M : LLVMModule) (C : Config).
















End Assertion.

(** * The loop round by round *)

Section Rounds.

Context (M : LLVMModule) (C : Config).

Lemma during_query_loop_round start stk this :
  during_query M C start stk this →
  during_query M C start stk (loop_round M C this).
Proof.
  intros Hdq. unfold loop_round.
  destruct (loop_condition C this) eqn:Hcond; [|exact Hdq].
  destruct (searchqueue this) as [|top rest] eqn:Hq; [exact Hdq|].
  destruct (isTheTarget C top) eqn:Ht; [exact Hdq|].
  destruct (doSingleSearchIteration M C this) as [this'| |] eqn:Hstep;
    try exact Hdq.
  eapply dq_iteration; eassumption.
Qed.

Lemma during_query_rounds start stk n this :
  during_query M C start stk this →
  during_query M C start stk (Nat.iter n (loop_round M C) this).
Proof.
  intros Hdq. induction n as [|n IH]; simpl; [exact Hdq|].
  apply during_query_loop_round, IH.
Qed.

End Rounds.

(** * The expansion rules on the small modules *)

Section RulesOnDemo.

Ltac no_repetition :=
  repeat (apply NoDup_cons_2;
          [let H := fresh in
           intros H;
           repeat (apply elem_of_cons in H as [H|H]; [discriminate H|]);
           apply elem_of_nil in H; exact H|]);
  apply NoDup_nil_2.

Lemma second_pass_during_query :
  during_query Loop.module Loop.config 1 [] Loop.second_pass.
Proof.
  apply during_query_rounds. apply dq_start. reflexivity.
Qed.

(** Against C2 as stated: in the query started at the call in the loop,
    the call is on top of the queue again after four rounds.  It is a call
    of a function with a body, the stack is empty, so there is no
    recursion; the successor at the entry of the function with the call on
    the stack was recorded in the first round, and the step pushes
    nothing. *)
Lemma defined_call_successor_dropped :
  during_query Loop.module Loop.config 1 [] Loop.second_pass
  ∧ searchqueue Loop.second_pass
    = [{| instruction := it_at 1; distanceFromStart := 4; stack := [] |}]
  ∧ isa_CallInst Loop.module 1 = true
  ∧ getCalledFunction Loop.module 1 = Some 1
  ∧ isIntrinsic Loop.module 1 = false
  ∧ blocks Loop.module 1 = [1]
  ∧ instructions Loop.module 1 = [3]
  ∧ doesIntroduceRecursion Loop.module
      {| instruction := it_at 1; distanceFromStart := 4; stack := [] |}
      {| call := it_at 1 |} = Ok false
  ∧ ∃ this5,
      doSingleSearchIteration Loop.module Loop.config Loop.second_pass = Ok this5
      ∧ searchqueue this5 = []
      ∧ pushed this5 = pushed Loop.second_pass.
Proof.
  split; [exact second_pass_during_query|].
  repeat (split; [vm_compute; reflexivity|]).
  eexists. split; [vm_compute; reflexivity|].
  split; vm_compute; reflexivity.
Qed.

(** The call of function 3 at instruction 8 with that call already on the
    stack; the call in the loop at its second pass, whose successor is
    recorded; the call of function 1 at instruction 0, whose successor is
    not. *)
Lemma doSingleSearchIteration_defined_call_witness :
  doSingleSearchIteration Demo.module (Demo.config 2) (Demo.started 2 8 [8])
  = Ok (Demo.after_pop (Demo.started 2 8 [8]))
  ∧ doSingleSearchIteration Loop.module Loop.config Loop.second_pass
    = Ok (Demo.after_pop Loop.second_pass)
  ∧ ∃ this'',
      doSingleSearchIteration Demo.module (Demo.config 2) (Demo.started 2 0 [])
      = Ok this''
      ∧ searchqueue this'' ≡ₚ [Demo.state_at 6 1 [0]]
      ∧ pushed this'' = [Demo.state_at 6 1 [0]; Demo.state_at 0 0 []].
Proof.
  split; [|split].
  - apply (proj1 (doSingleSearchIteration_defined_call Demo.module (Demo.config 2)
             (Demo.started 2 8 [8]) (Demo.after_pop (Demo.started 2 8 [8]))
             (Demo.state_at 8 0 [8]) 8 3 5 [] 8 [9]
             eq_refl eq_refl eq_refl eq_refl eq_refl eq_refl eq_refl)).
    reflexivity.
  - destruct (proj1 (proj2 (doSingleSearchIteration_defined_call
                Loop.module Loop.config
                Loop.second_pass (Demo.after_pop Loop.second_pass)
                {| instruction := it_at 1; distanceFromStart := 4; stack := [] |}
                1 1 1 [] 3 []
                eq_refl eq_refl eq_refl eq_refl eq_refl eq_refl eq_refl))
                eq_refl) as [_ H].
    apply H.
    + apply (during_query_reachable _ _ _ _ _ second_pass_during_query).
    + reflexivity.
    + apply (bool_decide_unpack _). vm_compute. exact I.
  - destruct (proj1 (proj2 (doSingleSearchIteration_defined_call
                Demo.module (Demo.config 2)
                (Demo.started 2 0 []) (Demo.after_pop (Demo.started 2 0 []))
                (Demo.state_at 0 0 []) 0 1 3 [] 6 [7]
                eq_refl eq_refl eq_refl eq_refl eq_refl eq_refl eq_refl))
                eq_refl) as [_ H].
    destruct H as [_ H].
    + apply (reachable_BFSearcher_new Demo.module (Demo.config 2) 0 []).
      reflexivity.
    + reflexivity.
    + destruct H as (this'' & H1 & H2 & H3 & _).
      * apply (bool_decide_unpack _). vm_compute. exact I.
      * exists this''. split; [exact H1|]. split; [exact H2|exact H3].
Defined.

(** The return at instruction 3 with an empty stack, and the return at
    instruction 7 with the call at instruction 0 on the stack. *)
Lemma doSingleSearchIteration_return_witness :
  doSingleSearchIteration Demo.module (Demo.config 2) (Demo.started 2 3 [])
  = Ok (Demo.after_pop (Demo.started 2 3 []))
  ∧ ∃ this'',
      doSingleSearchIteration Demo.module (Demo.config 2) (Demo.started 2 7 [0])
      = Ok this''
      ∧ searchqueue this'' ≡ₚ [Demo.state_at 1 1 []]
      ∧ pushed this'' = [Demo.state_at 1 1 []; Demo.state_at 7 0 [0]].
Proof.
  split.
  - apply (proj1 (doSingleSearchIteration_return Demo.module (Demo.config 2)
             (Demo.started 2 3 []) (Demo.after_pop (Demo.started 2 3 []))
             (Demo.state_at 3 0 []) 3 eq_refl eq_refl eq_refl)).
    reflexivity.
  - destruct (proj2 (doSingleSearchIteration_return Demo.module (Demo.config 2)
                (Demo.started 2 7 [0]) (Demo.after_pop (Demo.started 2 7 [0]))
                (Demo.state_at 7 0 [0]) 7 eq_refl eq_refl eq_refl)
                {| call := it_at 0 |} [] 0 1 [] [2] eq_refl eq_refl eq_refl
                (not_elem_of_nil 0)) as (_ & H & _).
    destruct H as (this'' & H1 & H2 & H3 & _).
    + apply (reachable_BFSearcher_new Demo.module (Demo.config 2) 7 [0]).
      reflexivity.
    + simpl. no_repetition.
    + reflexivity.
    + exists this''. split; [exact H1|]. split; [exact H2|exact H3].
Defined.

(** The call of the declared function 2 at instruction 1. *)
Lemma doSingleSearchIteration_external_call_witness :
  ∃ this'',
    doSingleSearchIteration Demo.module (Demo.config 2) (Demo.started 2 1 [])
    = Ok this''
    ∧ searchqueue this'' ≡ₚ [Demo.state_at 2 1 []]
    ∧ pushed this'' = [Demo.state_at 2 1 []; Demo.state_at 1 0 []].
Proof.
  assert (Hext : external_call Demo.module 1).
  { right. exists 2. split; [reflexivity|]. right. reflexivity. }
  assert (Hnot : 1 ∉ [0]).
  { intros H. apply list_elem_of_singleton in H. discriminate H. }
  destruct (doSingleSearchIteration_external_call Demo.module (Demo.config 2)
              (Demo.started 2 1 []) (Demo.after_pop (Demo.started 2 1 []))
              (Demo.state_at 1 0 []) 1 2 [0] []
              eq_refl eq_refl eq_refl Hext eq_refl Hnot) as (_ & H & _).
  destruct H as (this'' & H1 & H2 & H3 & _).
  - apply (reachable_BFSearcher_new Demo.module (Demo.config 2) 1 []).
    reflexivity.
  - simpl. no_repetition.
  - reflexivity.
  - exists this''. split; [exact H1|]. split; [exact H2|exact H3].
Defined.



End RulesOnDemo.
